(** * wdoc / DocToolsLLM: the query and summary pipeline, embedded in Rocq

    The definitions below follow the Python sources

    - [utils/tasks/query.py]: [format_chat_history],
      [check_intermediate_answer], [refilter_docs], [parse_eval_output];
    - [DocToolsLLM/DocToolsLLM.py]: the deduplication of the loaded documents
      in [DocToolsLLM_class.__init__]; the count of the tokens and the budget
      gate of [_summary_task]; the marker clean-up, the recursive passes and
      the choice of the output files of [summarize_documents]; the choice of
      the retrievers, the batched reduction and the lists of relevant
      answers of [_query];
    - [examples/NtfySummarizer/NtfySummarizer.py]: the reading of the
      message in [main].

    A Python [str] is a list of characters, and a character is a code point
    from U+0000 to U+00FF, held in Rocq's [ascii].  The character classes are
    Python's on these code points: [str.isspace] and the white space of
    [str.strip] also hold U+0085 and U+00A0; [str.isdigit] also holds the
    superscripts U+00B2, U+00B3 and U+00B9, which [str.isdecimal], the
    class [\d] and [int] do not; the class [\w] and the boundary [\b] of a
    [str] pattern also count the letters and the numeric characters above
    U+007F.  [int] refuses more than 4300 digits, the interpreter's default
    limit.  Exceptions are values of [exn] and a call that may raise returns a
    [result].  Functions that are not part of these sources (the tokenizer,
    the splitter, the summarizer, the model) are variables of the sections
    that use them. *)

From Stdlib Require Import Ascii String QArith.
From stdpp Require Import gmap strings list fin_maps.

Local Open Scope bool_scope.
Local Open Scope nat_scope.

(** ** Strings *)

Abbreviation str := (list ascii).

(** A string literal of the source. *)
Definition lit (s : string) : str := list_ascii_of_string s.

Definition code (c : ascii) : nat := nat_of_ascii c.

Definition in_range (lo hi : nat) (c : ascii) : bool :=
  (lo <=? code c) && (code c <=? hi).

(** [str.isspace] on one character, which is also what [str.strip] removes:
    TAB, LF, VT, FF, CR, the separators FS, GS, RS, US, the space, NEL
    (U+0085) and the no-break space (U+00A0). *)
Definition isspace (c : ascii) : bool :=
  in_range 9 13 c || in_range 28 31 c || (code c =? 32)
  || (code c =? 133) || (code c =? 160).

(** [str.isdecimal] on one character: the digits [0] to [9].  These are
    also the class [\d] and the digits that [int] reads. *)
Definition isdecimal (c : ascii) : bool := in_range 48 57 c.

(** [str.isdigit] on one character: the decimal digits and the superscripts
    two, three (U+00B2, U+00B3) and one (U+00B9). *)
Definition isdigit (c : ascii) : bool :=
  isdecimal c || in_range 178 179 c || (code c =? 185).

(** The class [\w] of a [str] pattern: the underscore and the characters
    that [str.isalnum] accepts, which are the ASCII letters and digits, the
    ordinal indicators (U+00AA, U+00BA), the superscript digits, the micro
    sign (U+00B5), the fractions (U+00BC to U+00BE) and the letters from
    U+00C0 to U+00FF, the signs U+00D7 and U+00F7 left out. *)
Definition isword (c : ascii) : bool :=
  in_range 65 90 c || in_range 97 122 c || isdecimal c || (code c =? 95)
  || (code c =? 170) || in_range 178 179 c || (code c =? 181)
  || in_range 185 186 c || in_range 188 190 c
  || in_range 192 214 c || in_range 216 246 c || in_range 248 255 c.

Definition str_eqb (a b : str) : bool := bool_decide (a = b).

(** The no-break space U+00A0, white space for [str.strip], and the letter
    e with an acute accent U+00E9, a word character. *)
Definition no_break_space : ascii := ascii_of_nat 160.
Definition e_acute : ascii := ascii_of_nat 233.

(** [c in s] for a one-character needle. *)
Definition contains_char (c : ascii) (s : str) : bool :=
  existsb (Ascii.eqb c) s.

Fixpoint lstrip (s : str) : str :=
  match s with
  | [] => []
  | c :: r => if isspace c then lstrip r else s
  end.

Fixpoint rstrip (s : str) : str :=
  match s with
  | [] => []
  | c :: r =>
      match rstrip r with
      | [] => if isspace c then [] else [c]
      | r' => c :: r'
      end
  end.

(** [s.strip()] *)
Definition strip (s : str) : str := lstrip (rstrip s).

(** [s.startswith(p)], returning what follows the prefix. *)
Fixpoint strip_prefix (p s : str) : option str :=
  match p, s with
  | [], _ => Some s
  | _ :: _, [] => None
  | a :: p', b :: s' => if Ascii.eqb a b then strip_prefix p' s' else None
  end.

Definition startswith (p s : str) : bool :=
  match strip_prefix p s with Some _ => true | None => false end.

(** [needle in s] for strings: some suffix of [s] starts with [needle]. *)
Fixpoint contains (needle s : str) : bool :=
  startswith needle s ||
  match s with
  | [] => false
  | _ :: r => contains needle r
  end.

(** ** Exceptions *)

Inductive exn : Type :=
  | NoDocumentsRetrieved
  | NoDocumentsAfterWeakLLMFiltering
  | InvalidDocEvaluationByWeakLLM
  | AssertionError
  | KeyError
  | IndexError
  | ValueError
  | PlainException.

Inductive result (A : Type) : Type :=
  | Ok (a : A)
  | Raise (e : exn).
Arguments Ok {A} a.
Arguments Raise {A} e.

Definition bind {A B : Type} (r : result A) (k : A -> result B) : result B :=
  match r with
  | Ok a => k a
  | Raise e => Raise e
  end.

Fixpoint mapR {A B : Type} (f : A -> result B) (l : list A) : result (list B) :=
  match l with
  | [] => Ok []
  | a :: l' =>
      match f a with
      | Ok b => match mapR f l' with Ok bs => Ok (b :: bs) | Raise e => Raise e end
      | Raise e => Raise e
      end
  end.

Notation "'let!' x ':=' r 'in' k" := (bind r (fun x => k))
  (at level 10, x name, r at level 99, k at level 200).

(** What the pipeline prints through [red] and [whi], as far as the
    properties below read it. *)
Inductive log : Type :=
  | FoundDuplicateHashes
  | Removed (n total : nat)
  | CostOverLimitNotCrashing
  | EvalsContainedStrings (evals : list str).

(** ** Documents *)

(** A langchain [Document]: its text and its metadata dictionary.
    [metadata_id] is [id(d.metadata)], the identity of the dictionary
    object. *)
Record Document : Type := {
  page_content : str;
  metadata_id : nat;
  metadata : gmap str str
}.

(** [d.metadata[k]] *)
Definition meta (d : Document) (k : string) : result str :=
  match metadata d !! lit k with
  | Some v => Ok v
  | None => Raise KeyError
  end.


(** ** [utils/tasks/query.py] *)

Module Query.

(** *** [parse_eval_output] *)

Definition zero : ascii := "0"%char.
Definition one : ascii := "1"%char.
Definition dash : ascii := "-"%char.

Definition parse_eval_output (output : str) : result str :=
  match strip output with
  | [] => Raise InvalidDocEvaluationByWeakLLM
  | _ :: _ =>
      if contains_char dash output then Raise InvalidDocEvaluationByWeakLLM
      else
        let digits := List.filter isdigit output in
        match digits with
        | [] => Raise InvalidDocEvaluationByWeakLLM
        | [d] =>
            if Ascii.eqb d zero then Ok (lit "0")
            else if Ascii.eqb d one then Ok (lit "1")
            else Raise InvalidDocEvaluationByWeakLLM
        | _ :: _ :: _ =>
            if contains_char zero digits && contains_char one digits
            then Raise InvalidDocEvaluationByWeakLLM
            else if negb (contains_char zero digits)
                    && negb (contains_char one digits)
            then Raise InvalidDocEvaluationByWeakLLM
            else Raise PlainException
        end
  end.

(** The digit characters of an output, in order. *)
Definition digits_of (output : str) : list ascii := List.filter isdigit output.

(** *** [check_intermediate_answer] *)

Definition IRRELEVANT : str := lit "IRRELEVANT".

(** A word boundary [\b] next to a word character: the neighbour is missing
    or is not a word character. *)
Definition boundary (neighbour : option ascii) : bool :=
  match neighbour with
  | None => true
  | Some c => negb (isword c)
  end.

(** [\bIRRELEVANT\b] matched at the head of [s], [prev] being the character
    before it. *)
Definition word_here (prev : option ascii) (s : str) : bool :=
  boundary prev &&
  match strip_prefix IRRELEVANT s with
  | Some rest => boundary (head rest)
  | None => false
  end.

Fixpoint search_from (prev : option ascii) (s : str) : bool :=
  word_here prev s ||
  match s with
  | [] => false
  | c :: r => search_from (Some c) r
  end.

(** [re.search(r"\bIRRELEVANT\b", ans)] as a truth value. *)
Definition re_search_IRRELEVANT (ans : str) : bool := search_from None ans.

Definition check_intermediate_answer (ans : str) : bool :=
  (negb (re_search_IRRELEVANT ans) && (length ans <? length IRRELEVANT * 2))
  || (length IRRELEVANT * 2 <=? length ans).

(** The character before the end of [pre], or [prev] when [pre] is empty. *)
Definition before (prev : option ascii) (pre : str) : option ascii :=
  match last pre with
  | Some c => Some c
  | None => prev
  end.

(** The text holds [IRRELEVANT] as a word of its own: an occurrence with no
    word character right before it and none right after it. *)
Definition standalone_word (ans : str) : Prop :=
  exists pre post,
    ans = pre ++ IRRELEVANT ++ post /\
    boundary (last pre) = true /\ boundary (head post) = true.

(** *** [refilter_docs] *)

(** One entry of [inputs["evaluations"]]: the list of votes of a document,
    or a single vote that is not wrapped in a list. *)
Inductive evaluation : Type :=
  | Single (vote : str)
  | Votes (votes : list str).

(** [if not isinstance(evals, list): evals = [evals]] *)
Definition as_list (evals : evaluation) : list str :=
  match evals with
  | Single v => [v]
  | Votes vs => vs
  end.

(** [str.isdigit]: not empty and made of digits. *)
Definition str_isdigit (s : str) : bool :=
  match s with
  | [] => false
  | _ :: _ => forallb isdigit s
  end.

(** [sys.get_int_max_str_digits()], the most digits that [int] reads: 4300
    unless the interpreter is told otherwise. *)
Definition int_max_str_digits : Z := 4300.

(** The number that a string of decimal digits writes in base ten. *)
Definition decimal_value (s : str) : Z :=
  fold_left (fun acc c => (10 * acc + (Z.of_nat (code c) - 48))%Z) s 0%Z.

(** Whether [int] reads a string that [str.isdigit] accepts: its digits are
    decimal and it has no more of them than the limit; leading zeros
    count. *)
Definition int_accepts (s : str) : bool :=
  forallb isdecimal s && (Z.of_nat (length s) <=? int_max_str_digits)%Z.

(** [int(s)] for a string [s] that [str.isdigit] accepts: its value in base
    ten (leading zeros allowed), or a [ValueError]. *)
Definition int (s : str) : result Z :=
  if int_accepts s then Ok (decimal_value s) else Raise ValueError.

Definition sum (l : list Z) : Z := fold_left Z.add l 0%Z.

(** The body of the loop over [enumerate(evaluations)]. *)
Definition refilter_step (unfiltered_docs : list Document)
    (acc : list Document * list log) (ie : nat) (evals : evaluation)
    : result (list Document * list log) :=
  let '(filtered_docs, logs) := acc in
  let evals := as_list evals in
  if forallb str_isdigit evals then
    let! evals := mapR int evals in
    if negb (sum evals =? 0)%Z then
      match unfiltered_docs !! ie with
      | Some d => Ok (filtered_docs ++ [d], logs)
      | None => Raise IndexError
      end
    else Ok (filtered_docs, logs)
  else
    match unfiltered_docs !! ie with
    | Some d => Ok (filtered_docs ++ [d], logs ++ [EvalsContainedStrings evals])
    | None => Raise IndexError
    end.

Fixpoint refilter_loop (unfiltered_docs : list Document)
    (acc : list Document * list log) (ie : nat) (evaluations : list evaluation)
    : result (list Document * list log) :=
  match evaluations with
  | [] => Ok acc
  | evals :: rest =>
      let! acc' := refilter_step unfiltered_docs acc ie evals in
      refilter_loop unfiltered_docs acc' (S ie) rest
  end.

Definition refilter_docs (unfiltered_docs : list Document)
    (evaluations : list evaluation) : result (list Document * list log) :=
  if negb (length unfiltered_docs =? length evaluations) then
    Raise AssertionError
  else
    match unfiltered_docs with
    | [] => Raise NoDocumentsRetrieved
    | _ :: _ =>
        let! out := refilter_loop unfiltered_docs ([], []) 0 evaluations in
        match fst out with
        | [] => Raise NoDocumentsAfterWeakLLMFiltering
        | _ :: _ => Ok out
        end
    end.

(** Votes on which the body of the loop does not raise: when they are all
    digit strings, [int] reads each of them. *)
Definition readable (evals : evaluation) : bool :=
  if forallb str_isdigit (as_list evals)
  then forallb int_accepts (as_list evals)
  else true.

(** The verdict on one document, read off the votes: whether the body of
    the loop appends the document. *)
Definition keeps (evals : evaluation) : bool :=
  if forallb str_isdigit (as_list evals)
  then match mapR int (as_list evals) with
       | Ok ns => negb (sum ns =? 0)%Z
       | Raise _ => false
       end
  else true.

(** The documents whose votes keep them, in the order of the input. *)
Fixpoint selected (docs : list Document) (evaluations : list evaluation)
    : list Document :=
  match docs, evaluations with
  | d :: docs', e :: evaluations' =>
      if keeps e then d :: selected docs' evaluations'
      else selected docs' evaluations'
  | _, _ => []
  end.

(** The warnings on votes that are not digit strings, in order. *)
Fixpoint warnings (evaluations : list evaluation) : list log :=
  match evaluations with
  | [] => []
  | e :: evaluations' =>
      if forallb str_isdigit (as_list e) then warnings evaluations'
      else EvalsContainedStrings (as_list e) :: warnings evaluations'
  end.

(** The superscript two, a digit for [str.isdigit] that [int] does not
    read. *)
Definition superscript_two : ascii := ascii_of_nat 178.

End Query.

(** ** [DocToolsLLM_class.__init__]: duplicate hashes among the loaded
    documents *)

Module Loader.

(** [hashes.count(h)] *)
Definition count (h : str) (hashes : list str) : nat :=
  length (filter (fun x => x = h) hashes).

(** [{h: hashes.count(h) for h in uniq_hashes}] *)
Definition counter_of (uniq_hashes hashes : list str) : gmap str nat :=
  list_to_map (map (fun h => (h, count h hashes)) uniq_hashes).

(** The state the loop over [enumerate(self.loaded_docs)] works on:
    [self.loaded_docs] with the removed entries set to [None], [counter]
    and [removed_docs]. *)
Record state : Type := {
  slots : list (option Document);
  counter : gmap str nat;
  removed_docs : list Document
}.

Definition counter_at (c : gmap str nat) (h : str) : result nat :=
  match c !! h with
  | Some n => Ok n
  | None => Raise KeyError
  end.

Definition dedup_step (st : state) (i : nat) (doc : Document) : result state :=
  let! h := meta doc "hash" in
  let! n := counter_at (counter st) h in
  let st' :=
    if 1 <? n then
      {| slots := <[i := None]> (slots st);
         counter := <[h := n - 1]> (counter st);
         removed_docs := removed_docs st ++ [doc] |}
    else st in
  let! c := counter_at (counter st') h in
  if 0 <? c then Ok st' else Raise AssertionError.

(** The loop reads [loaded_docs[i]] before it overwrites that entry, so it
    walks the documents as loaded. *)
Fixpoint dedup_loop (i : nat) (docs : list Document) (st : state) : result state :=
  match docs with
  | [] => Ok st
  | doc :: rest =>
      let! st' := dedup_step st i doc in
      dedup_loop (S i) rest st'
  end.

(** [[d for d in self.loaded_docs if d is not None]] *)
Definition compact (sl : list (option Document)) : list Document :=
  omap id sl.

Definition dedup (loaded_docs : list Document) : result (list Document * list log) :=
  if length loaded_docs <=? 1 then Ok (loaded_docs, [])
  else
    let ids := map metadata_id loaded_docs in
    if negb (length ids =? length (remove_dups ids)) then Raise AssertionError
    else
      let! hashes := mapR (fun d => meta d "hash") loaded_docs in
      let uniq_hashes := remove_dups hashes in
      let removed_paths : list str := [] in
      let counter := counter_of uniq_hashes hashes in
      if length hashes =? length uniq_hashes then Ok (loaded_docs, [])
      else
        let! st := dedup_loop 0 loaded_docs
                     {| slots := map Some loaded_docs;
                        counter := counter;
                        removed_docs := [] |} in
        let log1 := Removed (length (removed_docs st)) (length hashes) in
        let loaded_docs := compact (slots st) in
        let! present_path := mapR (fun d => meta d "path") loaded_docs in
        let intersect : gset str :=
          list_to_set removed_paths ∩ list_to_set present_path in
        if bool_decide (intersect = ∅) then
          Ok (loaded_docs,
              [FoundDuplicateHashes; log1;
               Removed (length removed_paths) (length hashes)])
        else Raise PlainException.

(** The hash of a document, when its metadata has one. *)
Definition hash_of (d : Document) : option str := metadata d !! lit "hash".
Definition path_of (d : Document) : option str := metadata d !! lit "path".

(** Keeping, for every hash, the last document that carries it. *)
Fixpoint keep_last (docs : list Document) : list Document :=
  match docs with
  | [] => []
  | d :: rest =>
      if bool_decide (hash_of d ∈ map hash_of rest) then keep_last rest
      else d :: keep_last rest
  end.

(** Keeping, for every hash, the first document that carries it. *)
Fixpoint keep_first_from (seen : list (option str)) (docs : list Document)
    : list Document :=
  match docs with
  | [] => []
  | d :: rest =>
      if bool_decide (hash_of d ∈ seen) then keep_first_from seen rest
      else d :: keep_first_from (hash_of d :: seen) rest
  end.

Definition keep_first (docs : list Document) : list Document :=
  keep_first_from [] docs.

(** The documents the pipeline works on carry a hash and a path. *)
Definition has_meta (d : Document) : Prop :=
  is_Some (hash_of d) /\ is_Some (path_of d).

Definition hashes_of (docs : list Document) : list str := omap hash_of docs.

(** The entries of [self.loaded_docs] after the loop: [None] where a later
    document carries the same hash. *)
Fixpoint marked (docs : list Document) : list (option Document) :=
  match docs with
  | [] => []
  | d :: rest =>
      (if bool_decide (hash_of d ∈ map hash_of rest) then None else Some d)
      :: marked rest
  end.

(** The documents that are not the last of their hash, in order. *)
Fixpoint dropped (docs : list Document) : list Document :=
  match docs with
  | [] => []
  | d :: rest =>
      if bool_decide (hash_of d ∈ map hash_of rest) then d :: dropped rest
      else dropped rest
  end.

(** A source path is amputated by a removal when some of its documents were
    removed and some are still present. *)
Definition amputated (removed kept : list Document) : Prop :=
  exists p, Some p ∈ map path_of removed /\ Some p ∈ map path_of kept.

End Loader.

(** ** [_summary_task] *)

Module Summary.

(** *** The budget gate *)

(** The truth value of [self.llms_api_bases["model"]]: [None] and the empty
    string are false. *)
Definition truthy (api_base : option str) : bool :=
  match api_base with
  | Some (_ :: _) => true
  | _ => false
  end.

(** The test on [estimate_dol] against [self.dollar_limit].  The estimate is
    taken as given; the result is what is logged when the run goes on. *)
Definition budget_gate (estimate_dol dollar_limit : Q) (api_base : option str)
    : result (list log) :=
  if Qle_bool estimate_dol dollar_limit then Ok []
  else if truthy api_base then Raise PlainException
  else Ok [CostOverLimitNotCrashing].

(** *** The clean-up before a recursive summary *)

Definition newline : ascii := ascii_of_nat 10.

(** [s.split("\n")] *)
Fixpoint split_nl (s : str) : list str :=
  match s with
  | [] => [[]]
  | c :: r =>
      if Ascii.eqb c newline then [] :: split_nl r
      else
        match split_nl r with
        | l :: ls => (c :: l) :: ls
        | [] => [[c]]
        end
  end.

(** ["\n".join(ls)] *)
Fixpoint join_nl (ls : list str) : str :=
  match ls with
  | [] => []
  | [l] => l
  | l :: ls' => l ++ newline :: join_nl ls'
  end.

(** One or more digits, greedily: what follows them. *)
Fixpoint skip_digits (s : str) : str :=
  match s with
  | [] => []
  | c :: r => if isdecimal c then skip_digits r else s
  end.

Definition digits1 (s : str) : option str :=
  match s with
  | [] => None
  | c :: r => if isdecimal c then Some (skip_digits r) else None
  end.

Definition slash : ascii := "/"%char.

(** [- Chunk \d+/\d+] matched at the head of [s].  The first run of digits
    has to be followed by the slash, so only the longest run can match; of
    the second run one digit is enough. *)
Definition chunk_here (s : str) : bool :=
  match strip_prefix (lit "- Chunk ") s with
  | Some r1 =>
      match digits1 r1 with
      | Some (c :: d :: _) => Ascii.eqb c slash && isdecimal d
      | _ => false
      end
  | None => false
  end.

(** [re.search(r"- Chunk \d+/\d+", l)] as a truth value. *)
Fixpoint re_search_chunk (l : str) : bool :=
  chunk_here l ||
  match l with
  | [] => false
  | _ :: r => re_search_chunk r
  end.

Definition is_separator (l : str) : bool := str_eqb (strip l) (lit "- ---").
Definition is_recursion_block (l : str) : bool :=
  startswith (lit "- BEFORE RECURSION #") (strip l).

(** The loop over [enumerate(sp)]: the entries it sets to [None]. *)
Fixpoint blank_markers (sp : list str) : list (option str) :=
  match sp with
  | [] => []
  | l :: rest =>
      if is_separator l then None :: blank_markers rest
      else if re_search_chunk l then None :: blank_markers rest
      else if is_recursion_block l then None :: map (fun _ => None) rest
      else Some l :: blank_markers rest
  end.

(** [[s.rstrip() for s in sp if s]]: [None] and the empty string are false. *)
Definition kept_lines (sp : list (option str)) : list str :=
  omap (fun s => match s with
                 | Some (c :: r) => Some (rstrip (c :: r))
                 | _ => None
                 end) sp.

(** The clean-up of [summary_text], without the assertions after it. *)
Definition clean_summary (summary_text : str) : str :=
  join_nl (kept_lines (blank_markers (split_nl summary_text))).

(** The clean-up with the three assertions on its result. *)
Definition clean_summary_checked (summary_text : str) : result str :=
  let summary_text := clean_summary summary_text in
  if contains (lit "- ---") summary_text then Raise AssertionError
  else if contains (lit "- Chunk ") summary_text then Raise AssertionError
  else if contains (lit "- BEFORE RECURSION # ") summary_text
  then Raise AssertionError
  else Ok summary_text.

(** A line that is not empty and holds white space only. *)
Definition blank_line (l : str) : Prop := l <> [] /\ strip l = [].

Definition is_marker (l : str) : bool :=
  is_separator l || re_search_chunk l || is_recursion_block l.

Definition nl_free (l : str) : Prop := Forall (fun c => c <> newline) l.

(** A line as the clean-up leaves it: no line break in it, not a marker,
    no white space at its end. *)
Definition clean_line (l : str) : Prop :=
  nl_free l /\ is_marker l = false /\ rstrip l = l.

Definition nonempty (l : str) : bool :=
  match l with
  | [] => false
  | _ :: _ => true
  end.

(** A text with a chunk marker in it: [- Chunk ], digits, a slash and a
    digit. *)
Definition has_chunk_marker (l : str) : Prop :=
  exists pre ds d post,
    l = pre ++ lit "- Chunk " ++ ds ++ slash :: d :: post /\
    ds <> [] /\ forallb isdecimal ds = true /\ isdecimal d = true.

End Summary.

(** ** [_query]: the batched reduction of the intermediate answers *)

Module Reduce.

Definition batch_size : nat := 5.

(** The list [batches] is kept as the closed batches and the last one,
    [batches[-1]]. *)
Definition batch_step (st : list (list str) * list str) (ia : str)
    : list (list str) * list str :=
  let '(closed, current) := st in
  if negb (Query.check_intermediate_answer ia) then (closed, current)
  else
    let '(closed, current) :=
      if batch_size <=? length current then (closed ++ [current], [])
      else (closed, current) in
    if length current <? batch_size then (closed, current ++ [ia])
    else (closed, current).

Definition make_batches (intermediate_answers : list str) : list (list str) :=
  let '(closed, current) := fold_left batch_step intermediate_answers ([], []) in
  closed ++ [current].

(** What the loop over the answers keeps true of [batches]: the closed
    batches are full, the last one is not over-full, and it is empty only
    when it is the first. *)
Definition well_formed (st : list (list str) * list str) : Prop :=
  Forall (fun b => length b = batch_size) (fst st) /\
  length (snd st) <= batch_size /\
  ((fst st) <> [] -> (snd st) <> []).

Section Chain.

(** [PR_COMBINE_INTERMEDIATE_ANSWERS | self.llm | StrOutputParser()]: the
    model's answer to a question and the text of the statements. *)
Variable combine_answers : str -> str -> str.

(** [final_answer_chain]: the answers deemed irrelevant are dropped and the
    others joined before the model is called. *)
Definition final_answer_chain (question : str) (intermediate_answers : list str)
    : str :=
  combine_answers question
    (Summary.join_nl
       (List.filter Query.check_intermediate_answer intermediate_answers)).

(** What [_query] leaves behind: the final answer, the audit trail and, in
    order, the argument of every call of [final_answer_chain]. *)
Record outcome : Type := {
  final_answer : str;
  all_intermediate_answers : list (list str);
  calls : list (list str)
}.

(** The [while] loop; [fuel] bounds the number of rounds. *)
Fixpoint reduce_loop (fuel : nat) (question : str)
    (intermediate_answers : list str) (trace : list (list str))
    : option (list str * list (list str)) :=
  if batch_size <? length intermediate_answers then
    match fuel with
    | 0 => None
    | S fuel' =>
        let batches := make_batches intermediate_answers in
        reduce_loop fuel' question
          (map (final_answer_chain question) batches) (trace ++ batches)
    end
  else Some (intermediate_answers, trace).

Definition reduce (fuel : nat) (question : str) (intermediate_answers : list str)
    : option outcome :=
  match reduce_loop fuel question intermediate_answers [] with
  | Some (last, trace) =>
      Some {| final_answer := final_answer_chain question last;
              all_intermediate_answers := [intermediate_answers; last];
              calls := trace ++ [last] |}
  | None => None
  end.

End Chain.

End Reduce.

(** ** Sample data *)

Module Sample.

(** A document with the metadata the loader gives it. *)
Definition doc (id : nat) (hash path : string) : Document :=
  {| page_content := lit "text";
     metadata_id := id;
     metadata := <[lit "hash" := lit hash]> (<[lit "path" := lit path]> ∅) |}.

Definition a1 : Document := doc 1 "h1" "a.pdf".
Definition b1 : Document := doc 2 "h2" "b.pdf".
Definition a2 : Document := doc 3 "h1" "c.pdf".

Definition three_docs : list Document := [a1; b1; a2].

(** Two chunks of [a.pdf], the first of which has the text, and so the hash,
    of a chunk of [b.pdf]. *)
Definition p1 : Document := doc 1 "h1" "a.pdf".
Definition q1 : Document := doc 2 "h1" "b.pdf".
Definition p2 : Document := doc 3 "h2" "a.pdf".

Definition shared_chunk : list Document := [p1; q1; p2].

(** Twelve short answers, none of them the sentinel. *)
Definition twelve_answers : list str :=
  map lit ["a1"; "a2"; "a3"; "a4"; "a5"; "a6";
           "a7"; "a8"; "a9"; "a10"; "a11"; "a12"]%string.

(** A summary with the markers of a first pass in it. *)
Definition marked_summary : str :=
  Summary.join_nl
    (map lit ["- Chunk 1/2";
              "- first point  ";
              "    - detail";
              "- ---";
              "- Chunk 2/2";
              "- second point";
              "";
              "- BEFORE RECURSION #1";
              "- old text"]%string).

(** Two lines with a line of one space between them. *)
Definition blank_between : str :=
  Summary.join_nl (map lit ["- a"; " "; "- b"]%string).

(** A stand-in for the model: it answers with the statements it was given. *)
Definition echo (question statements : str) : str := statements.

Definition three_votes : list Query.evaluation :=
  [Query.Votes [lit "1"; lit "0"; lit "0"];
   Query.Votes [lit "0"; lit "0"; lit "0"];
   Query.Single (lit "yes")].

End Sample.

(** ** [format_chat_history] *)

Module Chat.

(** A dialogue turn, [(human, ai)], as the memory stores it. *)
Definition turn : Type := (str * str)%type.

(** The two lines a turn adds to the buffer. *)
Definition turn_lines (t : turn) : list str :=
  [lit "Human: " ++ fst t; lit "Assistant: " ++ snd t].

Definition format_chat_history (chat_history : list turn) : str :=
  fold_left
    (fun buffer dialogue_turn =>
       buffer ++ Summary.newline :: Summary.join_nl (turn_lines dialogue_turn))
    chat_history [].

End Chat.

(** ** [_query]: the answers and documents reported as relevant *)

Module Relevant.

(** The loop over [enumerate(output["intermediate_answers"])]; the state is
    [relevant_filtered_docs] and [relevant_intermediate_answers]. *)
Definition relevant_step (filtered_docs : list Document)
    (acc : list Document * list str) (ia : nat) (a : str)
    : result (list Document * list str) :=
  if Query.check_intermediate_answer a then
    match filtered_docs !! ia with
    | Some d => Ok (fst acc ++ [d], snd acc ++ [a])
    | None => Raise IndexError
    end
  else Ok acc.

Fixpoint relevant_loop (filtered_docs : list Document)
    (acc : list Document * list str) (ia : nat) (answers : list str)
    : result (list Document * list str) :=
  match answers with
  | [] => Ok acc
  | a :: rest =>
      let! acc' := relevant_step filtered_docs acc ia a in
      relevant_loop filtered_docs acc' (S ia) rest
  end.

Definition relevant (filtered_docs : list Document)
    (intermediate_answers : list str) : result (list Document * list str) :=
  relevant_loop filtered_docs ([], []) 0 intermediate_answers.

End Relevant.

(** ** [_summary_task]: the tokens of the documents, by path *)

Module Tokens.

Section Count.

(** [get_tkn_length], the tokenizer's count. *)
Variable get_tkn_length : str -> nat.

(** The loop that fills [docs_tkn_cost]. *)
Definition tkn_step (docs_tkn_cost : gmap str nat) (doc : Document)
    : result (gmap str nat) :=
  let! meta := meta doc "path" in
  match docs_tkn_cost !! meta with
  | None => Ok (<[meta := get_tkn_length (page_content doc)]> docs_tkn_cost)
  | Some v =>
      Ok (<[meta := v + get_tkn_length (page_content doc)]> docs_tkn_cost)
  end.

Fixpoint tkn_loop (docs_tkn_cost : gmap str nat) (loaded_docs : list Document)
    : result (gmap str nat) :=
  match loaded_docs with
  | [] => Ok docs_tkn_cost
  | doc :: rest =>
      let! docs_tkn_cost' := tkn_step docs_tkn_cost doc in
      tkn_loop docs_tkn_cost' rest
  end.

(** [sum(list(docs_tkn_cost.values()))] *)
Definition total (docs_tkn_cost : gmap str nat) : nat :=
  map_fold (fun _ v acc => v + acc) 0 docs_tkn_cost.

(** [docs_tkn_cost] and [full_tkn]. *)
Definition count_tokens (loaded_docs : list Document)
    : result (gmap str nat * nat) :=
  let! docs_tkn_cost := tkn_loop ∅ loaded_docs in
  Ok (docs_tkn_cost, total docs_tkn_cost).

(** The tokens of the documents that carry a given path. *)
Definition tokens_of_path (p : str) (docs : list Document) : nat :=
  sum_list
    (map (fun d => get_tkn_length (page_content d))
       (List.filter (fun d => bool_decide (Loader.path_of d = Some p)) docs)).

End Count.

End Tokens.

(** ** The assertions after the clean-up *)

Module Asserted.

(** The three texts the assertions look for. *)
Definition needles : list str :=
  [lit "- ---"; lit "- Chunk "; lit "- BEFORE RECURSION # "].

End Asserted.

(** ** [examples/NtfySummarizer]: the message of a notification *)

Module Ntfy.

Definition space : ascii := " "%char.

(** [message.split(" ", 1)], when there is a space to split at: the text
    before the first space and the text after it. *)
Fixpoint split_first (s : str) : option (str * str) :=
  match s with
  | [] => None
  | c :: r =>
      if Ascii.eqb c space then Some ([], r)
      else
        match split_first r with
        | Some (a, b) => Some (c :: a, b)
        | None => None
        end
  end.

(** How the [try] block of [main] starts: with the file type and the URL to
    summarize, or with the exception that is logged, sent and raised
    again. *)
Inductive request : Type :=
  | Request (filetype url : str)
  | RaisedValueError
  | RaisedAssertionError.

Definition parse_message (topic message : str) : request :=
  let topic := strip topic in
  let message := strip message in
  let unpacked :=
    if startswith (lit "http") message then Some (lit "auto", message)
    else split_first message in
  match unpacked with
  | None => RaisedValueError
  | Some (filetype, url) =>
      match topic, message with
      | [], _ => RaisedAssertionError
      | _, [] => RaisedAssertionError
      | _, _ =>
          if startswith (lit "http") url then Request filetype url
          else RaisedAssertionError
      end
  end.

End Ntfy.

(** ** [_query]: the retrievers of a setting *)

Module Retrievers.

Definition underscore : ascii := "_"%char.

(** [s.split(sep)] for a separator of one character. *)
Fixpoint split_on (sep : ascii) (s : str) : list str :=
  match s with
  | [] => [[]]
  | c :: r =>
      if Ascii.eqb c sep then [] :: split_on sep r
      else
        match split_on sep r with
        | l :: ls => (c :: l) :: ls
        | [] => [[c]]
        end
  end.

(** [sep.join(ls)] *)
Fixpoint join_on (sep : ascii) (ls : list str) : str :=
  match ls with
  | [] => []
  | [l] => l
  | l :: ls' => l ++ sep :: join_on sep ls'
  end.

(** [str.lower] on one character: the capital letters, those of ASCII and
    those from U+00C0 to U+00DE (the sign U+00D7 left out), are 32 code
    points below their small letters. *)
Definition lower_char (c : ascii) : ascii :=
  if in_range 65 90 c || in_range 192 214 c || in_range 216 222 c
  then ascii_of_nat (code c + 32) else c.

Definition lower (s : str) : str := map lower_char s.

(** The retrievers, named as they are built. *)
Inductive retriever : Type := Hyde | Knn | Svm | Parent | Default.

Definition name (r : retriever) : str :=
  match r with
  | Hyde => lit "hyde"
  | Knn => lit "knn"
  | Svm => lit "svm"
  | Parent => lit "parent"
  | Default => lit "default"
  end.

Definition allowed : list str :=
  map lit ["default"; "hyde"; "knn"; "svm"; "parent"]%string.

(** The retrievers in the order in which the source tries them. *)
Definition all_retrievers : list retriever :=
  [Hyde; Knn; Svm; Parent; Default].

(** [retrievers.append(...)] under [if name in setting.lower()]. *)
Definition append_if (setting : str) (r : retriever)
    (retrievers : list retriever) : list retriever :=
  if contains (name r) (lower setting) then retrievers ++ [r] else retrievers.

(** The first assertion on the setting, the list [retrievers] and the
    assertion that it is not empty. *)
Definition select_retrievers (setting : str) : result (list retriever) :=
  if negb (forallb (fun retriev => bool_decide (retriev ∈ allowed))
             (split_on underscore setting))
  then Raise AssertionError
  else
    let retrievers := [] in
    let retrievers := append_if setting Hyde retrievers in
    let retrievers := append_if setting Knn retrievers in
    let retrievers := append_if setting Svm retrievers in
    let retrievers := append_if setting Parent retrievers in
    let retrievers := append_if setting Default retrievers in
    match retrievers with
    | [] => Raise AssertionError
    | _ :: _ => Ok retrievers
    end.

End Retrievers.

(** ** [summarize_documents]: the recursive summaries *)

Module Recursive.
Import Summary.

Section Passes.

(** The documents handed to the model and the cost of a call, a float in
    the source, with its addition. *)
Variable docs : Type.
Variable cost : Type.
Variable cost_add : cost -> cost -> cost.

(** [splitter.transform_documents] on the one document made of
    [summary_text]; [check_docs_tkn_length], [true] when it returns and
    [false] when it raises; [do_summarize] with its [n_recursion], giving
    the text, the tokens and the cost. *)
Variable transform_documents : str -> docs.
Variable check_docs_tkn_length : docs -> bool.
Variable do_summarize : docs -> nat -> str * Z * cost.

(** The variables the loop updates. *)
Record state : Type := State {
  summary_text : str;
  doc_total_tokens : Z;
  doc_total_cost : cost;
  n_recursion_done : nat;
  recursive_summaries : gmap nat str
}.

(** One turn of the loop for [n_recur]: [inl] when it ends in [break],
    [inr] when it runs to its end. *)
Definition pass (n_recur : nat) (st : state) : result (state + state) :=
  let! cleaned := clean_summary_checked (summary_text st) in
  let summary_docs := transform_documents cleaned in
  if negb (check_docs_tkn_length summary_docs)
  then Ok (inl (State cleaned (doc_total_tokens st) (doc_total_cost st)
                  (n_recursion_done st) (recursive_summaries st)))
  else
    let '(new_text, new_doc_total_tokens, new_doc_total_cost) :=
      do_summarize summary_docs n_recur in
    let n_done := n_recursion_done st + 1 in
    let! _ := clean_summary_checked new_text in
    Ok (inr (State new_text
               (doc_total_tokens st + new_doc_total_tokens)%Z
               (cost_add (doc_total_cost st) new_doc_total_cost)
               n_done
               (<[n_done := new_text]> (recursive_summaries st)))).

Fixpoint passes (n_recurs : list nat) (st : state) : result state :=
  match n_recurs with
  | [] => Ok st
  | n_recur :: rest =>
      let! r := pass n_recur st in
      match r with
      | inl st' => Ok st'
      | inr st' => passes rest st'
      end
  end.

(** From the first summary to [summary = summary_text]: the summary that
    is returned is the [summary_text] of the state. *)
Definition summarize_recursively (summary_n_recursion : nat) (summary : str)
    (doc_total_tokens : Z) (doc_total_cost : cost) : result state :=
  let st := State summary doc_total_tokens doc_total_cost 0 {[0 := summary]} in
  if 0 <? summary_n_recursion
  then passes (seq 1 summary_n_recursion) st
  else Ok st.

(** The summary stored under [j], the empty text when there is none, and
    the call of [do_summarize] that pass [j] makes when the stored
    summaries are [rs]. *)
Definition stored (rs : gmap nat str) (j : nat) : str := default [] (rs !! j).

Definition call (rs : gmap nat str) (j : nat) : str * Z * cost :=
  do_summarize (transform_documents (clean_summary (stored rs (j - 1)))) j.

(** What holds of the variables after [k] passes that ran to their end,
    when the first summary is [summary] with its tokens and its cost: the
    summaries stored are those of the passes [0] to [k], each made from the
    cleaned one before it, and the totals are those of the calls. *)
Definition invariant (summary : str) (tokens : Z) (price : cost) (k : nat)
    (st : state) : Prop :=
  let rs := recursive_summaries st in
  n_recursion_done st = k /\
  (forall j, is_Some (rs !! j) <-> j <= k) /\
  rs !! 0 = Some summary /\
  (forall j, 1 <= j <= k ->
     rs !! j = Some (call rs j).1.1 /\
     check_docs_tkn_length
       (transform_documents (clean_summary (stored rs (j - 1)))) = true /\
     clean_summary_checked (stored rs (j - 1))
       = Ok (clean_summary (stored rs (j - 1))) /\
     clean_summary_checked (stored rs j) = Ok (clean_summary (stored rs j))) /\
  doc_total_tokens st
    = (tokens + foldr Z.add 0 (map (fun j => (call rs j).1.2) (seq 1 k)))%Z /\
  doc_total_cost st
    = fold_left cost_add (map (fun j => (call rs j).2) (seq 1 k)) price.

End Passes.

Arguments State {cost}.
Arguments summary_text {cost}.
Arguments doc_total_tokens {cost}.
Arguments doc_total_cost {cost}.
Arguments n_recursion_done {cost}.
Arguments recursive_summaries {cost}.
Arguments pass {docs cost}.
Arguments passes {docs cost}.
Arguments summarize_recursively {docs cost}.
Arguments call {docs cost}.
Arguments invariant {docs cost}.

(** [max(list(recursive_summaries.keys()))] *)
Definition max_key (recursive_summaries : gmap nat str) : nat :=
  map_fold (fun k _ acc => Nat.max k acc) 0 recursive_summaries.

(** Whether the summary stored under [nrecur] is written to a file of its
    own, [<stem>.<nrecur>.md], rather than to [out_file]. *)
Definition is_intermediate (recursive_summaries : gmap nat str) (nrecur : nat)
    : bool :=
  (1 <? size recursive_summaries) && (nrecur <? max_key recursive_summaries).

End Recursive.

(** ** A stand-in for the summarizer *)

Module SamplePasses.

(** A summarizer that keeps the first half of its text, charges its length
    in tokens and the number of the pass as cost; texts of up to three
    characters are refused by the check of the length. *)
Definition halve (summary_docs : str) (n_recur : nat) : str * Z * nat :=
  (take (length summary_docs / 2) summary_docs,
   Z.of_nat (length summary_docs), n_recur).

Definition long_enough (summary_docs : str) : bool :=
  3 <? length summary_docs.

Definition summarize (summary_n_recursion : nat) (summary : str)
    : result (Recursive.state nat) :=
  Recursive.summarize_recursively Nat.add (fun s => s) long_enough halve
    summary_n_recursion summary 8 0.

End SamplePasses.

(** * Properties *)

(** ** Strings *)

Section StringFacts.

Lemma contains_char_elem (c : ascii) (s : str) :
  contains_char c s = true <-> c ∈ s.
Proof.
  unfold contains_char. rewrite existsb_exists. split.
  - intros (x & Hin & Heq). apply Ascii.eqb_eq in Heq. subst x.
    by apply list_elem_of_In.
  - intros Hin. exists c. split; [by apply list_elem_of_In|apply Ascii.eqb_refl].
Qed.

Lemma contains_char_not_elem (c : ascii) (s : str) :
  contains_char c s = false <-> c ∉ s.
Proof.
  rewrite <- contains_char_elem. destruct (contains_char c s); naive_solver.
Qed.

Lemma strip_prefix_app (p s r : str) :
  strip_prefix p s = Some r <-> s = p ++ r.
Proof.
  revert s. induction p as [|a p IH]; intros s; simpl.
  - split; [by intros [= ->]|by intros ->].
  - destruct s as [|b s]; [by split|].
    destruct (Ascii.eqb a b) eqn:E.
    + apply Ascii.eqb_eq in E. subst b. rewrite IH.
      split; [by intros ->|by intros [= ->]].
    + apply Ascii.eqb_neq in E. split; [done|]. by intros [= -> _].
Qed.

End StringFacts.

(** ** [parse_eval_output] *)

Module ParseEvalOutput.
Import Query.

(** The cases in which the source raises [InvalidDocEvaluationByWeakLLM]
    are those the specification lists. *)
Lemma invalid_iff (output : str) :
  parse_eval_output output = Raise InvalidDocEvaluationByWeakLLM <->
    (strip output = [] \/ dash ∈ output \/ digits_of output = [] \/
     (zero ∈ digits_of output /\ one ∈ digits_of output) \/
     ((zero ∉ digits_of output) /\ (one ∉ digits_of output))).
Proof.
  unfold parse_eval_output, digits_of.
  destruct (strip output) as [|c0 r0] eqn:Hs; [naive_solver|].
  destruct (contains_char dash output) eqn:Hd.
  { apply contains_char_elem in Hd. naive_solver. }
  apply contains_char_not_elem in Hd.
  destruct (List.filter isdigit output) as [|d [|d' ds]] eqn:Hf.
  - naive_solver.
  - destruct (Ascii.eqb d zero) eqn:E0.
    { apply Ascii.eqb_eq in E0. subst d. split; [done|].
      intros [?|[?|[?|[[_ H1]|[H0 _]]]]]; try done.
      - apply list_elem_of_singleton in H1. discriminate H1.
      - exfalso. apply H0. by apply list_elem_of_singleton. }
    destruct (Ascii.eqb d one) eqn:E1.
    { apply Ascii.eqb_eq in E1. subst d. split; [done|].
      intros [?|[?|[?|[[H0 _]|[_ H1]]]]]; try done.
      - apply list_elem_of_singleton in H0. discriminate H0.
      - exfalso. apply H1. by apply list_elem_of_singleton. }
    apply Ascii.eqb_neq in E0, E1. split; [|done]. intros _.
    right; right; right; right.
    split; intros H%list_elem_of_singleton; congruence.
  - assert (Hne : d :: d' :: ds <> []) by done.
    revert Hne. generalize (d :: d' :: ds). intros ds2 Hne.
    destruct (contains_char zero ds2) eqn:H0, (contains_char one ds2) eqn:H1;
      simpl;
      first [apply contains_char_elem in H0|apply contains_char_not_elem in H0];
      first [apply contains_char_elem in H1|apply contains_char_not_elem in H1].
    + split; [|done]. intros _. right; right; right; left. done.
    + split; [done|]. intros [?|[?|[?|[[_ ?]|[? _]]]]]; done.
    + split; [done|]. intros [?|[?|[?|[[? _]|[_ ?]]]]]; done.
    + split; [|done]. intros _. right; right; right; right. done.
Qed.

(** A digit is returned only for an output with exactly one digit
    character, [0] or [1]. *)
Lemma returns_iff (output : str) (r : str) :
  parse_eval_output output = Ok r <->
    (strip output <> [] /\ (dash ∉ output) /\
     ((digits_of output = [zero] /\ r = lit "0") \/
      (digits_of output = [one] /\ r = lit "1"))).
Proof.
  unfold parse_eval_output, digits_of.
  destruct (strip output) as [|c0 r0] eqn:Hs; [split; [done|by intros [? _]]|].
  destruct (contains_char dash output) eqn:Hd.
  { apply contains_char_elem in Hd. split; [done|]. by intros (_ & ? & _). }
  apply contains_char_not_elem in Hd.
  destruct (List.filter isdigit output) as [|d [|d' ds]] eqn:Hf.
  - split; [done|]. by intros (_ & _ & [[? _]|[? _]]).
  - destruct (Ascii.eqb d zero) eqn:E0.
    { apply Ascii.eqb_eq in E0. subst d. split.
      - intros [= <-]. split; [done|]. split; [done|]. by left.
      - intros (_ & _ & [[_ ->]|[[=] _]]). done. }
    destruct (Ascii.eqb d one) eqn:E1.
    { apply Ascii.eqb_eq in E1. subst d. split.
      - intros [= <-]. split; [done|]. split; [done|]. by right.
      - intros (_ & _ & [[[=] _]|[_ ->]]). done. }
    apply Ascii.eqb_neq in E0, E1. split; [done|].
    intros (_ & _ & [[[=] _]|[[=] _]]); congruence.
  - split.
    + repeat case_match; done.
    + intros (_ & _ & [[[=] _]|[[=] _]]).
Qed.

(** C1. An output whose digit characters are all [1] but number more than
    one, such as [11], is neither rejected with
    [InvalidDocEvaluationByWeakLLM] nor answered with its digit: the source
    falls through to its last line and raises a plain [Exception]. *)
Theorem parse_eval_output_repeated_digit :
  parse_eval_output (lit "11") = Raise PlainException /\
  parse_eval_output (lit "00") = Raise PlainException /\
  parse_eval_output (lit "1") = Ok (lit "1") /\
  parse_eval_output (lit "0") = Ok (lit "0").
Proof. repeat split; vm_compute; reflexivity. Qed.

(** The examples of the specification. *)
Lemma parse_eval_output_examples :
  parse_eval_output (lit "") = Raise InvalidDocEvaluationByWeakLLM /\
  parse_eval_output (lit "1 and 0") = Raise InvalidDocEvaluationByWeakLLM /\
  parse_eval_output (lit "abc") = Raise InvalidDocEvaluationByWeakLLM /\
  parse_eval_output (lit "-1") = Raise InvalidDocEvaluationByWeakLLM.
Proof. repeat split; vm_compute; reflexivity. Qed.

End ParseEvalOutput.

(** ** [check_intermediate_answer] *)

Module CheckIntermediateAnswer.
Import Query.

Lemma before_cons (prev : option ascii) (c : ascii) (pre : str) :
  before prev (c :: pre) = before (Some c) pre.
Proof. unfold before. rewrite last_cons. by destruct (last pre). Qed.

Lemma word_here_spec (prev : option ascii) (s : str) :
  word_here prev s = true <->
    boundary prev = true /\
    exists post, s = IRRELEVANT ++ post /\ boundary (head post) = true.
Proof.
  unfold word_here. rewrite andb_true_iff.
  destruct (strip_prefix IRRELEVANT s) as [rest|] eqn:E.
  - apply strip_prefix_app in E. subst s. split.
    + intros [Hp Hr]. eauto.
    + intros [Hp (post & Heq & Hb)]. apply app_inv_head in Heq. by subst.
  - split; [by intros [_ ?]|]. intros [_ (post & Heq & _)].
    apply strip_prefix_app in Heq. congruence.
Qed.

Lemma search_from_spec (prev : option ascii) (s : str) :
  search_from prev s = true <->
    exists pre post,
      s = pre ++ IRRELEVANT ++ post /\
      boundary (before prev pre) = true /\ boundary (head post) = true.
Proof.
  revert prev. induction s as [|c r IH]; intros prev.
  - change (search_from prev []) with (word_here prev [] || false).
    rewrite orb_false_r, word_here_spec. split.
    + intros [Hp (post & Heq & Hb)]. by exists [], post.
    + intros (pre & post & Heq & Hp & Hb).
      destruct pre; discriminate Heq.
  - change (search_from prev (c :: r))
      with (word_here prev (c :: r) || search_from (Some c) r).
    rewrite orb_true_iff, word_here_spec, IH. split.
    + intros [[Hp (post & Heq & Hb)]|(pre & post & Heq & Hp & Hb)].
      * by exists [], post.
      * exists (c :: pre), post. rewrite before_cons. by subst r.
    + intros (pre & post & Heq & Hp & Hb). destruct pre as [|c' pre].
      * left. split; [exact Hp|]. exists post. split; [exact Heq|exact Hb].
      * right. injection Heq as <- ->. rewrite before_cons in Hp.
        by exists pre, post.
Qed.

(** [re.search] finds the pattern exactly in the texts that hold the word. *)
Lemma re_search_standalone (ans : str) :
  re_search_IRRELEVANT ans = true <-> standalone_word ans.
Proof.
  unfold re_search_IRRELEVANT, standalone_word. rewrite search_from_spec.
  unfold before. split; intros (pre & post & Heq & Hp & Hb);
    exists pre, post; (split; [done|]); split; try done;
    by destruct (last pre).
Qed.

(** C7. An answer is usable exactly when it is shorter than 20 characters
    and does not hold the word [IRRELEVANT], or is at least 20 characters
    long; so [IRRELEVANT] itself is not usable and every answer of at least
    20 characters is. *)
Theorem check_intermediate_answer_spec :
  (forall ans : str,
     check_intermediate_answer ans = true <->
       (~ standalone_word ans /\ length ans < 2 * length IRRELEVANT) \/
       2 * length IRRELEVANT <= length ans) /\
  2 * length IRRELEVANT = 20 /\
  check_intermediate_answer IRRELEVANT = false /\
  (forall ans : str, 20 <= length ans -> check_intermediate_answer ans = true).
Proof.
  assert (Hiff : forall ans : str,
     check_intermediate_answer ans = true <->
       (~ standalone_word ans /\ length ans < 2 * length IRRELEVANT) \/
       2 * length IRRELEVANT <= length ans).
  { intros ans. unfold check_intermediate_answer.
    rewrite orb_true_iff, andb_true_iff, negb_true_iff.
    rewrite Nat.ltb_lt, Nat.leb_le, <- re_search_standalone.
    change (length IRRELEVANT) with 10.
    destruct (re_search_IRRELEVANT ans); intuition (try congruence; try lia). }
  split; [exact Hiff|]. split; [reflexivity|]. split; [reflexivity|].
  intros ans Hlen. apply Hiff. right. change (length IRRELEVANT) with 10. lia.
Qed.

(** The word is looked for, not the substring: a longer word that merely
    contains it does not count, and punctuation around it does not hide
    it. *)
Lemma check_intermediate_answer_examples :
  check_intermediate_answer (lit "IRRELEVANTS") = true /\
  check_intermediate_answer (lit "is IRRELEVANT.") = false /\
  check_intermediate_answer (lit "IRRELEVANT IRRELEVANT") = true /\
  check_intermediate_answer (lit "") = true.
Proof. repeat split; vm_compute; reflexivity. Qed.

(** Above U+007F too the neighbours decide: a letter right before the
    word makes it part of a longer word, a no-break space does not. *)
Lemma check_intermediate_answer_letters :
  check_intermediate_answer (e_acute :: IRRELEVANT) = true /\
  check_intermediate_answer (IRRELEVANT ++ [superscript_two]) = true /\
  check_intermediate_answer (no_break_space :: IRRELEVANT) = false.
Proof. repeat split; vm_compute; reflexivity. Qed.

End CheckIntermediateAnswer.

(** ** [refilter_docs] *)

Module RefilterDocs.
Import Query.

Lemma mapR_int_accepts (votes : list str) :
  forallb int_accepts votes = true ->
  mapR int votes = Ok (map decimal_value votes).
Proof.
  induction votes as [|v vs IH]; [done|]. cbn [forallb mapR map].
  intros [Hv Hvs]%andb_true_iff. unfold int at 1. rewrite Hv.
  by rewrite (IH Hvs).
Qed.

Lemma mapR_int_rejects (votes : list str) :
  forallb int_accepts votes = false -> mapR int votes = Raise ValueError.
Proof.
  induction votes as [|v vs IH]; [done|]. cbn [forallb mapR].
  unfold int at 1. destruct (int_accepts v); [|done]. cbn [andb].
  intros Hvs. by rewrite (IH Hvs).
Qed.

(** On readable votes the body of the loop appends the document or not, as
    the verdict says, and warns of votes that are not digit strings. *)
Lemma refilter_step_keeps (docs : list Document) (filtered : list Document)
    (logs : list log) (ie : nat) (e : evaluation) (d : Document) :
  docs !! ie = Some d ->
  readable e = true ->
  refilter_step docs (filtered, logs) ie e =
    Ok (filtered ++ (if keeps e then [d] else []),
        logs ++ (if forallb str_isdigit (as_list e) then []
                 else [EvalsContainedStrings (as_list e)])).
Proof.
  intros Hd Hr. unfold refilter_step, keeps, readable in *. rewrite Hd.
  destruct (forallb str_isdigit (as_list e)).
  - rewrite (mapR_int_accepts _ Hr). cbn [bind].
    destruct (sum (map decimal_value (as_list e)) =? 0)%Z; simpl;
      by rewrite !app_nil_r.
  - reflexivity.
Qed.

(** On votes that are digit strings one of which [int] does not read, the
    body of the loop raises a [ValueError]. *)
Lemma refilter_step_unreadable (docs : list Document)
    (acc : list Document * list log) (ie : nat) (e : evaluation) :
  readable e = false -> refilter_step docs acc ie e = Raise ValueError.
Proof.
  destruct acc as [filtered logs]. unfold refilter_step, readable.
  destruct (forallb str_isdigit (as_list e)); [|done].
  intros Hr. by rewrite (mapR_int_rejects _ Hr).
Qed.

(** The loop adds to its accumulator the selected documents that are left
    and the warnings on their votes. *)
Lemma refilter_loop_spec (docs : list Document) (evaluations : list evaluation) :
  forallb readable evaluations = true ->
  forall (acc : list Document * list log) (ie : nat),
    length docs = ie + length evaluations ->
    refilter_loop docs acc ie evaluations =
      Ok (acc.1 ++ selected (drop ie docs) evaluations,
          acc.2 ++ warnings evaluations).
Proof.
  induction evaluations as [|e es IH]; intros Hall [filtered logs] ie Hlen.
  - simpl. destruct (drop ie docs); by rewrite !app_nil_r.
  - simpl in Hlen. cbn [forallb] in Hall.
    apply andb_true_iff in Hall as [He Hes].
    destruct (lookup_lt_is_Some_2 docs ie ltac:(lia)) as [d Hd].
    cbn [refilter_loop].
    rewrite (refilter_step_keeps _ _ _ _ _ d Hd He). cbn [bind].
    rewrite (IH Hes) by lia. cbn [fst snd].
    rewrite (drop_S _ _ _ Hd), <- !app_assoc. cbn [selected warnings].
    destruct (keeps e), (forallb str_isdigit (as_list e)); reflexivity.
Qed.

Lemma refilter_loop_unreadable (docs : list Document)
    (evaluations : list evaluation) :
  forallb readable evaluations = false ->
  forall (acc : list Document * list log) (ie : nat),
    length docs = ie + length evaluations ->
    refilter_loop docs acc ie evaluations = Raise ValueError.
Proof.
  induction evaluations as [|e es IH]; intros Hall [filtered logs] ie Hlen;
    [done|].
  simpl in Hlen. cbn [forallb] in Hall. cbn [refilter_loop].
  destruct (readable e) eqn:He.
  - destruct (lookup_lt_is_Some_2 docs ie ltac:(lia)) as [d Hd].
    rewrite (refilter_step_keeps _ _ _ _ _ d Hd He). cbn [bind].
    apply IH; [exact Hall|lia].
  - by rewrite (refilter_step_unreadable _ _ _ _ He).
Qed.

Lemma selected_nil_iff (docs : list Document) (evaluations : list evaluation) :
  length docs = length evaluations ->
  selected docs evaluations = [] <-> Forall (fun e => keeps e = false) evaluations.
Proof.
  revert evaluations. induction docs as [|d docs IH]; intros [|e es] Hlen;
    simpl in *; try discriminate.
  - split; [constructor|done].
  - destruct (keeps e) eqn:Hk.
    + split; [done|]. intros H. inversion H; congruence.
    + rewrite IH by lia. split; [by constructor|]. intros H. by inversion H.
Qed.

Lemma selected_sublist (docs : list Document) (evaluations : list evaluation) :
  selected docs evaluations `sublist_of` docs.
Proof.
  revert evaluations. induction docs as [|d docs IH]; intros [|e es]; simpl.
  - constructor.
  - constructor.
  - apply sublist_nil_l.
  - destruct (keeps e); [by apply sublist_skip|by apply sublist_cons].
Qed.

(** What [refilter_docs] does on lists of equal length. *)
Lemma refilter_docs_spec (docs : list Document) (evaluations : list evaluation) :
  length docs = length evaluations ->
  refilter_docs docs evaluations =
    match docs with
    | [] => Raise NoDocumentsRetrieved
    | _ :: _ =>
        if forallb readable evaluations then
          match selected docs evaluations with
          | [] => Raise NoDocumentsAfterWeakLLMFiltering
          | _ :: _ => Ok (selected docs evaluations, warnings evaluations)
          end
        else Raise ValueError
    end.
Proof.
  intros Hlen. unfold refilter_docs.
  rewrite Hlen, Nat.eqb_refl. simpl.
  destruct docs as [|d docs]; [done|].
  destruct (forallb readable evaluations) eqn:Hr.
  - rewrite (refilter_loop_spec _ _ Hr) by (simpl in *; lia).
    unfold drop. simpl.
    by destruct (selected (d :: docs) evaluations).
  - by rewrite (refilter_loop_unreadable _ _ Hr) by (simpl in *; lia).
Qed.

(** Whatever the lists, a list that is returned is the list of the selected
    documents, and it is not empty. *)
Lemma refilter_docs_returns (docs : list Document)
    (evaluations : list evaluation) (out : list Document) (logs : list log) :
  refilter_docs docs evaluations = Ok (out, logs) ->
  length docs = length evaluations /\
  forallb readable evaluations = true /\
  out = selected docs evaluations /\
  logs = warnings evaluations /\
  out <> [].
Proof.
  intros Hrun.
  assert (Hlen : length docs = length evaluations).
  { unfold refilter_docs in Hrun.
    destruct (length docs =? length evaluations) eqn:E; [|done].
    by apply Nat.eqb_eq in E. }
  rewrite (refilter_docs_spec _ _ Hlen) in Hrun.
  destruct docs as [|d docs]; [done|].
  destruct (forallb readable evaluations); [|done].
  destruct (selected (d :: docs) evaluations) as [|x xs]; [done|].
  injection Hrun as <- <-. done.
Qed.

Lemma decimal_from_nonneg (s : str) (acc : Z) :
  (0 <= acc)%Z -> forallb isdecimal s = true ->
  (0 <= fold_left (fun acc c => 10 * acc + (Z.of_nat (code c) - 48)) s acc)%Z.
Proof.
  revert acc. induction s as [|c s IH]; intros acc Ha Hd; simpl in *.
  - lia.
  - apply andb_true_iff in Hd as [Hc Hs]. apply IH; [|exact Hs].
    unfold isdecimal, in_range in Hc. apply andb_true_iff in Hc as [H1 H2].
    apply Nat.leb_le in H1, H2. lia.
Qed.

Lemma decimal_nonneg (s : str) :
  int_accepts s = true -> (0 <= decimal_value s)%Z.
Proof.
  intros [Hd _]%andb_true_iff. by apply decimal_from_nonneg.
Qed.

Lemma sum_from (l : list Z) (acc : Z) :
  fold_left Z.add l acc = (acc + sum l)%Z.
Proof.
  unfold sum. revert acc. induction l as [|x l IH]; intros acc; simpl.
  - lia.
  - rewrite IH, (IH (0 + x)%Z). lia.
Qed.

Lemma sum_cons (x : Z) (l : list Z) : sum (x :: l) = (x + sum l)%Z.
Proof. unfold sum at 1. simpl. apply sum_from. Qed.

(** Votes that [int] reads sum to zero only when each of them is zero: one
    positive vote is enough to keep the document. *)
Lemma sum_votes_nonzero (votes : list str) :
  forallb int_accepts votes = true ->
  sum (map decimal_value votes) <> 0%Z
  <-> Exists (fun n => n <> 0%Z) (map decimal_value votes).
Proof.
  induction votes as [|v vs IH]; intros Hd.
  - split; [done|]. intros H. inversion H.
  - simpl in Hd. apply andb_true_iff in Hd as [Hv Hvs].
    specialize (IH Hvs). pose proof (decimal_nonneg v Hv) as Hnn.
    assert (Hs : (0 <= sum (map decimal_value vs))%Z).
    { clear IH. induction vs as [|w ws IHw]; [done|].
      simpl in Hvs. apply andb_true_iff in Hvs as [Hw Hws].
      simpl. rewrite sum_cons. pose proof (decimal_nonneg w Hw).
      specialize (IHw Hws). lia. }
    simpl. rewrite sum_cons, Exists_cons, <- IH. lia.
Qed.

Lemma keeps_digits (e : evaluation) :
  forallb str_isdigit (as_list e) = true ->
  forallb int_accepts (as_list e) = true ->
  keeps e = true <-> sum (map decimal_value (as_list e)) <> 0%Z.
Proof.
  intros Hd Hr. unfold keeps. rewrite Hd, (mapR_int_accepts _ Hr).
  rewrite negb_true_iff. apply Z.eqb_neq.
Qed.



Lemma exists_keeps_selected (docs : list Document)
    (evaluations : list evaluation) :
  length docs = length evaluations ->
  Exists (fun e => keeps e = true) evaluations ->
  selected docs evaluations <> [].
Proof.
  intros Hlen Hex Hnil. apply selected_nil_iff in Hnil; [|done].
  apply Exists_exists in Hex as (e & Hin & Hk).
  rewrite Forall_forall in Hnil. specialize (Hnil e Hin). congruence.
Qed.


Lemma forallb_readable (evaluations : list evaluation) :
  Forall (fun e => readable e = true) evaluations ->
  forallb readable evaluations = true.
Proof.
  induction 1 as [|e es He _ IH]; [done|]. cbn [forallb]. by rewrite He, IH.
Qed.




(** C6. On lists of equal length: an empty list of documents raises
    [NoDocumentsRetrieved]; a list that is not empty, with readable votes
    that drop every document, raises the other error,
    [NoDocumentsAfterWeakLLMFiltering]; with readable votes that keep a
    document, a list that is not empty is returned.  An empty list is never
    returned. *)
Theorem refilter_docs_errors (docs : list Document)
    (evaluations : list evaluation) :
  length docs = length evaluations ->
  (docs = [] -> refilter_docs docs evaluations = Raise NoDocumentsRetrieved) /\
  (docs <> [] -> Forall (fun e => readable e = true) evaluations ->
     (Forall (fun e => keeps e = false) evaluations ->
        refilter_docs docs evaluations
        = Raise NoDocumentsAfterWeakLLMFiltering) /\
     (Exists (fun e => keeps e = true) evaluations ->
        exists out logs,
          refilter_docs docs evaluations = Ok (out, logs) /\ out <> [])) /\
  (forall ds es out logs, refilter_docs ds es = Ok (out, logs) -> out <> []) /\
  NoDocumentsRetrieved <> NoDocumentsAfterWeakLLMFiltering.
Proof.
  intros Hlen. rewrite refilter_docs_spec by done.
  split; [|split; [|split]].
  - by intros ->.
  - intros Hne Hread. rewrite (forallb_readable _ Hread).
    destruct docs as [|d docs]; [done|]. split.
    + intros Hall. apply (selected_nil_iff _ _ Hlen) in Hall.
      by rewrite Hall.
    + intros Hex. pose proof (exists_keeps_selected _ _ Hlen Hex) as Hsel.
      destruct (selected (d :: docs) evaluations) as [|x xs] eqn:E; [done|].
      by exists (x :: xs), (warnings evaluations).
  - intros ds es out logs Hrun.
    by apply refilter_docs_returns in Hrun as (_ & _ & _ & _ & Hout).
  - done.
Qed.

Lemma refilter_docs_errors_witness :
  refilter_docs Sample.three_docs
    [Votes [lit "0"]; Votes [lit "0"; lit "00"]; Votes []]
  = Raise NoDocumentsAfterWeakLLMFiltering.
Proof.
  apply (refilter_docs_errors Sample.three_docs
           [Votes [lit "0"]; Votes [lit "0"; lit "00"]; Votes []] eq_refl).
  - discriminate.
  - repeat constructor.
  - repeat constructor.
Defined.

(** An empty list of documents with a list of evaluations that is not
    empty ends with the [AssertionError] of the first lines, not with
    [NoDocumentsRetrieved]; and documents that are not all dropped do not
    make the call return when a later vote is not read by [int]. *)
Lemma refilter_docs_other_errors :
  refilter_docs [] [Votes [lit "1"]] = Raise AssertionError /\
  keeps (Votes [lit "1"]) = true /\
  refilter_docs [Sample.a1; Sample.b1]
    [Votes [lit "1"]; Votes [[superscript_two]]] = Raise ValueError.
Proof. vm_compute. by repeat split. Qed.

(** C10. On lists of equal length with a document to start from, what
    [refilter_docs] returns is a sublist of its input: documents of the
    input, in the order of the input, none of them taken more often than the
    input has it.  It does return a list when the votes are readable and
    keep a document. *)
Theorem refilter_docs_sublist (docs : list Document)
    (evaluations : list evaluation) :
  length docs = length evaluations ->
  docs <> [] ->
  (forall out logs,
     refilter_docs docs evaluations = Ok (out, logs) ->
     out <> [] /\
     out `sublist_of` docs /\
     (forall d, d ∈ out -> d ∈ docs) /\
     length out <= length docs /\
     (NoDup docs -> NoDup out)) /\
  (Forall (fun e => readable e = true) evaluations ->
   Exists (fun e => keeps e = true) evaluations ->
   exists out logs, refilter_docs docs evaluations = Ok (out, logs)).
Proof.
  intros Hlen Hne. split.
  - intros out logs Hrun.
    apply refilter_docs_returns in Hrun as (_ & _ & -> & _ & Hout).
    pose proof (selected_sublist docs evaluations) as Hsub.
    split; [done|]. split; [done|]. split; [|split].
    + intros y Hy. by eapply elem_of_sublist.
    + by apply sublist_length.
    + intros Hnd. by eapply sublist_NoDup.
  - intros Hread Hex. rewrite refilter_docs_spec by done.
    rewrite (forallb_readable _ Hread).
    destruct docs as [|d docs]; [done|].
    pose proof (exists_keeps_selected _ _ Hlen Hex) as Hsel.
    destruct (selected (d :: docs) evaluations) as [|x xs] eqn:E; [done|].
    by exists (x :: xs), (warnings evaluations).
Qed.

Lemma refilter_docs_sublist_witness :
  exists out logs,
    refilter_docs Sample.three_docs Sample.three_votes = Ok (out, logs) /\
    out `sublist_of` Sample.three_docs.
Proof.
  destruct (refilter_docs_sublist Sample.three_docs Sample.three_votes
              eq_refl ltac:(discriminate)) as [Hinv Hret].
  destruct Hret as (out & logs & Hrun).
  - repeat constructor.
  - apply Exists_cons_hd. reflexivity.
  - exists out, logs. split; [exact Hrun|].
    by destruct (Hinv out logs Hrun) as (_ & Hsub & _).
Defined.

End RefilterDocs.

(** ** Duplicate hashes among the loaded documents *)

Module Dedup.
Import Loader.

Lemma count_cons (h x : str) (l : list str) :
  count h (x :: l) = (if bool_decide (x = h) then 1 else 0) + count h l.
Proof.
  unfold count. rewrite filter_cons. by repeat case_decide; simplify_eq.
Qed.

Lemma count_pos (h : str) (l : list str) : 0 < count h l <-> h ∈ l.
Proof.
  induction l as [|x l IH].
  { rewrite elem_of_nil. unfold count. simpl. lia. }
  rewrite count_cons, elem_of_cons. case_bool_decide; subst.
  - split; [by left|]. lia.
  - rewrite Nat.add_0_l, IH. split; [by right|]. by intros [->|?].
Qed.

Lemma hash_elem (h : str) (docs : list Document) :
  Some h ∈ map hash_of docs <-> h ∈ hashes_of docs.
Proof.
  unfold hashes_of. rewrite list_elem_of_omap.
  change (map hash_of docs) with (hash_of <$> docs).
  rewrite list_elem_of_fmap.
  split; intros (d & ? & ?); exists d; by split.
Qed.

Lemma meta_hash (d : Document) (h : str) :
  hash_of d = Some h -> meta d "hash" = Ok h.
Proof. unfold hash_of, meta. by intros ->. Qed.

Lemma meta_path (d : Document) (p : str) :
  path_of d = Some p -> meta d "path" = Ok p.
Proof. unfold path_of, meta. by intros ->. Qed.

Lemma mapR_hash (docs : list Document) :
  Forall has_meta docs ->
  mapR (fun d => meta d "hash") docs = Ok (hashes_of docs).
Proof.
  induction 1 as [|d docs [[h Hh] _] _ IH]; [done|].
  cbn [mapR]. rewrite (meta_hash d h Hh), IH.
  unfold hashes_of. cbn [omap list_omap]. by rewrite Hh.
Qed.

Lemma mapR_path (docs : list Document) :
  Forall has_meta docs ->
  exists paths, mapR (fun d => meta d "path") docs = Ok paths.
Proof.
  induction 1 as [|d docs [_ [p Hp]] _ [paths IH]]; [by exists []|].
  cbn [mapR]. rewrite (meta_path d p Hp), IH. by eexists.
Qed.

Lemma hashes_of_length (docs : list Document) :
  Forall has_meta docs -> length (hashes_of docs) = length docs.
Proof.
  induction 1 as [|d docs [[h Hh] _] _ IH]; [done|].
  unfold hashes_of in *. cbn [omap list_omap]. rewrite Hh. simpl. by rewrite IH.
Qed.

Lemma hashes_of_fmap (docs : list Document) :
  Forall has_meta docs -> map hash_of docs = map Some (hashes_of docs).
Proof.
  induction 1 as [|d docs [[h Hh] _] _ IH]; [done|].
  unfold hashes_of in *. cbn [omap list_omap map]. rewrite Hh. simpl.
  by rewrite IH.
Qed.

Lemma hashes_of_cons (d : Document) (h : str) (rest : list Document) :
  hash_of d = Some h -> hashes_of (d :: rest) = h :: hashes_of rest.
Proof. intros Hh. unfold hashes_of. cbn [omap list_omap]. by rewrite Hh. Qed.

Lemma later_dup_iff (d : Document) (h : str) (rest : list Document) :
  hash_of d = Some h ->
  bool_decide (hash_of d ∈ map hash_of rest) = true <-> h ∈ hashes_of rest.
Proof.
  intros Hh. rewrite Hh, <- hash_elem. split.
  - apply bool_decide_eq_true_1.
  - apply bool_decide_eq_true_2.
Qed.

(** The loop, started in the middle of the list with a counter that holds,
    for every hash still to come, the number of documents still to come that
    carry it: it blanks every document that is not the last of its hash. *)
Lemma dedup_loop_spec (rest : list Document) :
  Forall has_meta rest ->
  forall (pre : list (option Document)) (st : state),
    slots st = pre ++ map Some rest ->
    (forall h, h ∈ hashes_of rest ->
       counter st !! h = Some (count h (hashes_of rest))) ->
    exists st',
      dedup_loop (length pre) rest st = Ok st' /\
      slots st' = pre ++ marked rest /\
      removed_docs st' = removed_docs st ++ dropped rest.
Proof.
  induction 1 as [|d rest [[h Hh] _] _ IH]; intros pre st Hslots Hcount.
  { exists st. simpl in *. rewrite app_nil_r in Hslots. by rewrite !app_nil_r. }
  cbn [dedup_loop]. unfold dedup_step.
  rewrite (meta_hash d h Hh). cbn [bind].
  rewrite (hashes_of_cons d h rest Hh) in Hcount.
  pose proof (Hcount h ltac:(left)) as Hh_count.
  rewrite count_cons, bool_decide_eq_true_2 in Hh_count by done.
  unfold counter_at at 1. rewrite Hh_count. cbn [bind].
  cbn [marked dropped].
  destruct (decide (h ∈ hashes_of rest)) as [Hin|Hnin].
  - pose proof (proj2 (count_pos h (hashes_of rest)) Hin) as Hpos.
    rewrite (proj2 (later_dup_iff d h rest Hh) Hin).
    replace (1 <? 1 + count h (hashes_of rest)) with true
      by (symmetry; apply Nat.ltb_lt; lia).
    cbn [counter]. unfold counter_at. rewrite lookup_insert_eq. cbn [bind].
    replace (0 <? 1 + count h (hashes_of rest) - 1) with true
      by (symmetry; apply Nat.ltb_lt; lia).
    destruct (IH (pre ++ [None])
      {| slots := <[length pre := None]> (slots st);
         counter := <[h := 1 + count h (hashes_of rest) - 1]> (counter st);
         removed_docs := removed_docs st ++ [d] |}) as (st' & Hrun & Hsl & Hrm).
    + cbn [slots]. rewrite Hslots, insert_app_r_alt, Nat.sub_diag by lia.
      by rewrite <- app_assoc.
    + intros h' Hh'. cbn [counter]. destruct (decide (h = h')) as [<-|Hne].
      * rewrite lookup_insert_eq. f_equal. lia.
      * rewrite lookup_insert_ne by done.
        rewrite (Hcount h' ltac:(by right)), count_cons.
        by rewrite bool_decide_eq_false_2.
    + exists st'. rewrite length_app, Nat.add_1_r in Hrun.
      split; [exact Hrun|]. rewrite Hsl, Hrm. cbn [removed_docs].
      by rewrite <- !app_assoc.
  - assert (Hzero : count h (hashes_of rest) = 0).
    { destruct (count h (hashes_of rest)) eqn:E; [done|].
      exfalso. apply Hnin, count_pos. lia. }
    rewrite Hzero. cbn [Nat.ltb Nat.leb Nat.add].
    unfold counter_at. rewrite Hh_count, Hzero. cbn [bind Nat.add Nat.ltb Nat.leb].
    replace (bool_decide (hash_of d ∈ map hash_of rest)) with false.
    2:{ symmetry. apply not_true_iff_false.
        by rewrite (later_dup_iff d h rest Hh). }
    destruct (IH (pre ++ [Some d]) st) as (st' & Hrun & Hsl & Hrm).
    + by rewrite Hslots, <- app_assoc.
    + intros h' Hh'. rewrite (Hcount h' ltac:(by right)), count_cons.
      rewrite bool_decide_eq_false_2; [done|]. by intros ->.
    + exists st'. rewrite length_app, Nat.add_1_r in Hrun.
      split; [exact Hrun|]. rewrite Hsl, Hrm. by rewrite <- !app_assoc.
Qed.

Lemma counter_of_lookup (hashes : list str) (h : str) :
  h ∈ hashes ->
  counter_of (remove_dups hashes) hashes !! h = Some (count h hashes).
Proof.
  intros Hin. unfold counter_of. apply elem_of_list_to_map_1.
  - assert (Hfst : forall l : list str,
              (map (fun x => (x, count x hashes)) l).*1 = l).
    { intros l. induction l as [|x l IH]; [done|]. simpl. by f_equal. }
    rewrite Hfst. apply NoDup_remove_dups.
  - change (map ?f ?l) with (f <$> l). apply list_elem_of_fmap.
    exists h. split; [done|]. by apply elem_of_remove_dups.
Qed.

Section RemoveDups.
Context {A : Type} `{EqDecision A}.
Implicit Types l : list A.

Lemma remove_dups_length_le l : length (remove_dups l) <= length l.
Proof.
  induction l as [|x l IH]; simpl; [done|]. case_decide; simpl; lia.
Qed.

Lemma remove_dups_length l : length (remove_dups l) = length l <-> NoDup l.
Proof.
  induction l as [|x l IH]; simpl.
  - split; [constructor|done].
  - rewrite NoDup_cons. pose proof (remove_dups_length_le l).
    case_decide; simpl.
    + split; [lia|]. by intros [? _].
    + rewrite <- IH. split; [intros [= ?]; by split|]. intros [_ ->]. done.
Qed.

End RemoveDups.

Lemma compact_Some (docs : list Document) : compact (map Some docs) = docs.
Proof.
  unfold compact. induction docs as [|d docs IH]; [done|].
  simpl. by f_equal.
Qed.

Lemma compact_marked (docs : list Document) :
  compact (marked docs) = keep_last docs.
Proof.
  unfold compact. induction docs as [|d docs IH]; [done|].
  cbn [marked keep_last]. case_bool_decide; simpl; [done|by f_equal].
Qed.

Lemma keep_last_dropped_length (docs : list Document) :
  length (keep_last docs) + length (dropped docs) = length docs.
Proof.
  induction docs as [|d docs IH]; [done|].
  cbn [keep_last dropped]. case_bool_decide; simpl; lia.
Qed.

Lemma keep_last_sublist (docs : list Document) :
  keep_last docs `sublist_of` docs.
Proof.
  induction docs as [|d docs IH]; [constructor|].
  cbn [keep_last]. case_bool_decide; [by apply sublist_cons|by apply sublist_skip].
Qed.

(** A document is kept exactly when it stands at a place after which its
    hash does not come again. *)
Lemma elem_of_keep_last (docs : list Document) (x : Document) :
  x ∈ keep_last docs <->
    exists pre post, docs = pre ++ x :: post /\ hash_of x ∉ map hash_of post.
Proof.
  induction docs as [|d docs IH].
  - split; [by intros ?%elem_of_nil|]. intros (pre & post & Heq & _).
    by destruct pre.
  - cbn [keep_last]. split.
    + intros Hin. assert (Hcase : (x = d /\ hash_of d ∉ map hash_of docs)
                                  \/ x ∈ keep_last docs).
      { case_bool_decide; [by right|].
        apply elem_of_cons in Hin as [->|Hin]; [by left|by right]. }
      destruct Hcase as [[-> Hn]|Hin'].
      * by exists [], docs.
      * apply IH in Hin' as (pre & post & -> & Hn).
        by exists (d :: pre), post.
    + intros (pre & post & Heq & Hn). destruct pre as [|d' pre].
      * injection Heq as -> ->. rewrite bool_decide_eq_false_2 by done.
        apply list_elem_of_here.
      * injection Heq as -> ->.
        assert (x ∈ keep_last (pre ++ x :: post)) by (apply IH; eauto).
        case_bool_decide; [done|]. by apply list_elem_of_further.
Qed.

Lemma keep_last_hashes (docs : list Document) (h : option str) :
  h ∈ map hash_of (keep_last docs) <-> h ∈ map hash_of docs.
Proof.
  induction docs as [|d docs IH]; [done|].
  cbn [keep_last]. case_bool_decide as Hd; cbn [map];
    rewrite ?elem_of_cons, IH; [|done].
  split; [by right|]. intros [->|?]; done.
Qed.

Lemma keep_last_NoDup (docs : list Document) :
  NoDup (map hash_of (keep_last docs)).
Proof.
  induction docs as [|d docs IH]; [constructor|].
  cbn [keep_last]. case_bool_decide as Hd; [done|].
  cbn [map]. apply NoDup_cons. split; [|done]. by rewrite keep_last_hashes.
Qed.

Lemma dropped_nil_NoDup (docs : list Document) :
  dropped docs = [] -> NoDup (map hash_of docs).
Proof.
  induction docs as [|d docs IH]; [constructor|].
  cbn [dropped map]. case_bool_decide as Hd; [done|].
  intros Hnil. apply NoDup_cons. split; [done|by apply IH].
Qed.

Lemma short_NoDup {A : Type} (l : list A) : length l <= 1 -> NoDup l.
Proof.
  destruct l as [|x [|y l]]; simpl; intros Hlen.
  - constructor.
  - apply NoDup_singleton.
  - lia.
Qed.

(** What the deduplication does on a list that holds a hash twice. *)
Lemma dedup_spec (docs : list Document) :
  NoDup (map metadata_id docs) ->
  Forall has_meta docs ->
  ~ NoDup (hashes_of docs) ->
  dedup docs =
    Ok (keep_last docs,
        [FoundDuplicateHashes;
         Removed (length (dropped docs)) (length docs);
         Removed 0 (length docs)]).
Proof.
  intros Hids Hmeta Hdup. unfold dedup.
  assert (Hlong : (length docs <=? 1) = false).
  { apply Nat.leb_gt. destruct (decide (length docs <= 1)); [|lia].
    exfalso. apply Hdup, short_NoDup. by rewrite hashes_of_length. }
  rewrite Hlong.
  rewrite (proj2 (remove_dups_length (map metadata_id docs)) Hids).
  rewrite Nat.eqb_refl. cbn [negb].
  rewrite (mapR_hash docs Hmeta). cbn [bind].
  assert (Hne : (length (hashes_of docs)
                 =? length (remove_dups (hashes_of docs))) = false).
  { apply Nat.eqb_neq. intros Heq. apply Hdup.
    by apply remove_dups_length. }
  rewrite Hne.
  destruct (dedup_loop_spec docs Hmeta []
    {| slots := map Some docs;
       counter := counter_of (remove_dups (hashes_of docs)) (hashes_of docs);
       removed_docs := [] |}) as (st & Hrun & Hsl & Hrm).
  { done. }
  { intros h Hh. cbn [counter]. by apply counter_of_lookup. }
  cbn [length] in Hrun. rewrite Hrun. cbn [bind].
  rewrite Hsl, Hrm. cbn [app removed_docs]. rewrite compact_marked.
  assert (Hkept : Forall has_meta (keep_last docs)).
  { rewrite Forall_forall in Hmeta |- *. intros d Hd. apply Hmeta.
    eapply elem_of_sublist; [exact Hd|apply keep_last_sublist]. }
  destruct (mapR_path _ Hkept) as [paths ->]. cbn [bind].
  rewrite bool_decide_eq_true_2
    by (rewrite list_to_set_nil; apply (left_absorb_L _ _)).
  by rewrite (hashes_of_length docs Hmeta).
Qed.

(** C3. For a list of documents, each with its own metadata object, a hash
    and a path, in which a hash comes twice, the deduplication returns one
    document for every hash of the input: the last one that carries it, these
    in the order of the input.  After the notice of duplicates it logs the
    number of documents removed out of the number loaded. *)
Theorem dedup_keeps_last (docs : list Document) :
  NoDup (map metadata_id docs) ->
  Forall has_meta docs ->
  ~ NoDup (hashes_of docs) ->
  exists out removed rest,
    dedup docs =
      Ok (out, FoundDuplicateHashes :: Removed removed (length docs) :: rest)
    /\
    out = keep_last docs /\
    removed = length docs - length out /\
    0 < removed /\
    NoDup (map hash_of out) /\
    (forall h, h ∈ map hash_of out <-> h ∈ map hash_of docs) /\
    out `sublist_of` docs /\
    (forall d, d ∈ out <->
       exists pre post,
         docs = pre ++ d :: post /\ (hash_of d ∉ map hash_of post)).
Proof.
  intros Hids Hmeta Hdup.
  exists (keep_last docs), (length (dropped docs)), [Removed 0 (length docs)].
  pose proof (keep_last_dropped_length docs) as Hlen.
  split; [by apply dedup_spec|]. split; [done|]. split; [lia|].
  split; [|split; [|split; [|split]]].
  - destruct (dropped docs) eqn:E; [|simpl; lia].
    exfalso. apply Hdup. apply dropped_nil_NoDup in E.
    rewrite (hashes_of_fmap docs Hmeta) in E.
    change (map Some (hashes_of docs)) with (Some <$> hashes_of docs) in E.
    by apply (NoDup_fmap_1 Some).
  - apply keep_last_NoDup.
  - intros h. apply keep_last_hashes.
  - apply keep_last_sublist.
  - intros d. apply elem_of_keep_last.
Qed.

Lemma dedup_keeps_last_witness :
  exists out removed rest,
    dedup Sample.three_docs =
      Ok (out, FoundDuplicateHashes :: Removed removed 3 :: rest) /\
    out = [Sample.b1; Sample.a2] /\ removed = 1.
Proof.
  destruct (dedup_keeps_last Sample.three_docs)
    as (out & removed & rest & H & Hout & Hrm & _).
  - apply (bool_decide_unpack _). vm_compute. exact I.
  - repeat constructor; eexists; vm_compute; reflexivity.
  - apply (bool_decide_unpack _). vm_compute. exact I.
  - exists out, removed, rest. split; [exact H|]. split; [exact Hout|].
    rewrite Hrm, Hout. reflexivity.
Defined.

(** The document kept for a hash is not the first that carries it: of
    [a1; b1; a2], where [a1] and [a2] share a hash, [b1; a2] is returned,
    and keeping the first of every hash would give [a1; b1]. *)
Lemma dedup_not_first_seen :
  exists out logs,
    dedup Sample.three_docs = Ok (out, logs) /\
    map metadata_id out = [2; 3] /\
    map metadata_id (keep_first Sample.three_docs) = [1; 2] /\
    out <> keep_first Sample.three_docs.
Proof.
  exists [Sample.b1; Sample.a2],
    [FoundDuplicateHashes; Removed 1 3; Removed 0 3].
  split; [vm_compute; reflexivity|]. split; [reflexivity|].
  split; [vm_compute; reflexivity|].
  intros Heq. apply (f_equal (map metadata_id)) in Heq.
  vm_compute in Heq. discriminate Heq.
Qed.

(** C9. The check for amputated documents compares the paths still present
    with [removed_paths], a list that is never filled.  Of the chunks
    [p1; q1; p2], where [p1] and [p2] come from [a.pdf] and [p1] has the hash
    of [q1], the first is removed and the other chunk of [a.pdf] stays:
    the path is amputated and the run goes on. *)
Theorem dedup_ignores_amputation :
  dedup Sample.shared_chunk =
    Ok ([Sample.q1; Sample.p2],
        [FoundDuplicateHashes; Removed 1 3; Removed 0 3]) /\
  dropped Sample.shared_chunk = [Sample.p1] /\
  amputated [Sample.p1] [Sample.q1; Sample.p2].
Proof.
  split; [vm_compute; reflexivity|]. split; [vm_compute; reflexivity|].
  exists (lit "a.pdf").
  split; apply (bool_decide_unpack _); vm_compute; exact I.
Qed.

(** Whatever is removed, the outcome is the one of [dedup_spec]: no list
    with a hash twice makes the check fail. *)
Lemma dedup_amputation_passes (docs : list Document) :
  NoDup (map metadata_id docs) ->
  Forall has_meta docs ->
  ~ NoDup (hashes_of docs) ->
  amputated (dropped docs) (keep_last docs) ->
  exists logs, dedup docs = Ok (keep_last docs, logs).
Proof.
  intros Hids Hmeta Hdup _. eexists. by apply dedup_spec.
Qed.

End Dedup.

(** ** The budget gate of [_summary_task] *)

Module Budget.
Import Summary.

(** Over the limit, the run stops exactly when an API base is set. *)
Lemma budget_gate_over (estimate_dol dollar_limit : Q) (api_base : option str) :
  Qle_bool estimate_dol dollar_limit = false ->
  budget_gate estimate_dol dollar_limit api_base =
    if truthy api_base then Raise PlainException
    else Ok [CostOverLimitNotCrashing].
Proof. intros Hover. unfold budget_gate. by rewrite Hover. Qed.

Lemma budget_gate_within (estimate_dol dollar_limit : Q) (api_base : option str) :
  Qle_bool estimate_dol dollar_limit = true ->
  budget_gate estimate_dol dollar_limit api_base = Ok [].
Proof. intros Hin. unfold budget_gate. by rewrite Hin. Qed.

(** C2. With an estimate of 12 dollars against a limit of 5: when no API
    base is set the run goes on, logging that the API base was modified;
    when one is set the run stops with an exception. *)
Theorem budget_gate_inverted :
  budget_gate 12 5 None = Ok [CostOverLimitNotCrashing] /\
  budget_gate 12 5 (Some (lit "")) = Ok [CostOverLimitNotCrashing] /\
  budget_gate 12 5 (Some (lit "http://localhost:11434")) = Raise PlainException.
Proof. repeat split; vm_compute; reflexivity. Qed.

End Budget.

(** ** The batched reduction of [_query] *)

Module Reduction.
Import Query Reduce.

Lemma batch_step_usable (closed : list (list str)) (current : list str)
    (ia : str) :
  check_intermediate_answer ia = true ->
  batch_step (closed, current) ia =
    if batch_size <=? length current then (closed ++ [current], [ia])
    else (closed, current ++ [ia]).
Proof.
  intros Hia. unfold batch_step. rewrite Hia. cbn [negb].
  destruct (batch_size <=? length current) eqn:E; [done|].
  apply Nat.leb_gt in E. by rewrite (proj2 (Nat.ltb_lt _ _) E).
Qed.

Lemma batch_step_unusable (st : list (list str) * list str) (ia : str) :
  check_intermediate_answer ia = false -> batch_step st ia = st.
Proof. intros Hia. destruct st. unfold batch_step. by rewrite Hia. Qed.

Lemma batch_step_well_formed (st : list (list str) * list str) (ia : str) :
  well_formed st -> well_formed (batch_step st ia).
Proof.
  destruct st as [closed current]. intros (Hfull & Hcur & Hne).
  destruct (check_intermediate_answer ia) eqn:Hia.
  - rewrite batch_step_usable by done.
    destruct (batch_size <=? length current) eqn:E;
      unfold well_formed, batch_size in *; cbn [fst snd] in *.
    + apply Nat.leb_le in E. split; [|split].
      * apply Forall_app. split; [done|]. apply Forall_singleton. lia.
      * simpl. lia.
      * done.
    + apply Nat.leb_gt in E. split; [done|split].
      * rewrite length_app. simpl. lia.
      * intros _. by destruct current.
  - by rewrite batch_step_unusable.
Qed.

Lemma batch_step_concat (st : list (list str) * list str) (ia : str) :
  concat ((batch_step st ia).1 ++ [(batch_step st ia).2]) =
    concat (st.1 ++ [st.2]) ++
    (if check_intermediate_answer ia then [ia] else []).
Proof.
  destruct st as [closed current].
  destruct (check_intermediate_answer ia) eqn:Hia.
  - rewrite batch_step_usable by done.
    destruct (batch_size <=? length current); simpl;
      rewrite !concat_app; simpl; by rewrite ?app_nil_r, <- ?app_assoc.
  - rewrite batch_step_unusable by done. by rewrite app_nil_r.
Qed.

Lemma fold_batches (ias : list str) :
  forall st : list (list str) * list str,
    well_formed st ->
    let st' := fold_left batch_step ias st in
    well_formed st' /\
    concat (st'.1 ++ [st'.2]) =
      concat (st.1 ++ [st.2]) ++ List.filter check_intermediate_answer ias.
Proof.
  induction ias as [|ia ias IH]; intros st Hwf; simpl.
  - split; [done|]. by rewrite app_nil_r.
  - destruct (IH (batch_step st ia) (batch_step_well_formed _ _ Hwf))
      as [Hwf' Hcat].
    split; [done|]. rewrite Hcat, batch_step_concat, <- app_assoc.
    by destruct (check_intermediate_answer ia).
Qed.

Lemma make_batches_state (ias : list str) :
  exists closed current,
    make_batches ias = closed ++ [current] /\
    well_formed (closed, current) /\
    concat (closed ++ [current]) = List.filter check_intermediate_answer ias.
Proof.
  unfold make_batches.
  destruct (fold_batches ias ([], [])) as [Hwf Hcat].
  { repeat split; simpl; [constructor|lia|done]. }
  destruct (fold_left batch_step ias ([], [])) as [closed current].
  by exists closed, current.
Qed.

(** The batches hold the usable answers, in order, five at most in each. *)
Lemma make_batches_partition (ias : list str) :
  concat (make_batches ias) = List.filter check_intermediate_answer ias /\
  Forall (fun b => length b <= batch_size) (make_batches ias).
Proof.
  destruct (make_batches_state ias)
    as (closed & current & -> & (Hfull & Hcur & _) & Hcat).
  split; [done|]. apply Forall_app. split.
  - eapply Forall_impl; [exact Hfull|]. simpl. intros b ->. done.
  - by apply Forall_singleton.
Qed.

Lemma filter_length_le {A : Type} (f : A -> bool) (l : list A) :
  length (List.filter f l) <= length l.
Proof. induction l as [|x l IH]; simpl; [done|]. destruct (f x); simpl; lia. Qed.

Lemma concat_full_length (bs : list (list str)) :
  Forall (fun b => length b = batch_size) bs ->
  length (concat bs) = batch_size * length bs.
Proof.
  induction 1 as [|b bs Hb _ IH]; [simpl; lia|].
  cbn [concat length]. rewrite length_app, IH, Hb. lia.
Qed.

(** A round of the loop leaves fewer answers than it started from. *)
Lemma make_batches_shrinks (ias : list str) :
  batch_size < length ias -> length (make_batches ias) < length ias.
Proof.
  intros Hlong.
  destruct (make_batches_state ias)
    as (closed & current & -> & (Hfull & Hcur & Hne) & Hcat).
  pose proof (filter_length_le check_intermediate_answer ias) as Hle.
  rewrite <- Hcat, concat_app, length_app, concat_full_length in Hle by done.
  simpl in Hle. rewrite app_nil_r in Hle. rewrite length_app. simpl.
  unfold batch_size in *. destruct closed as [|b closed]; simpl in *; [lia|].
  assert (current <> []) by (by apply Hne).
  destruct current; simpl in *; [done|]. lia.
Qed.

Section Chain.

Variable combine_answers : str -> str -> str.
Variable question : str.

Lemma reduce_loop_total (fuel : nat) :
  forall (ias : list str) (trace : list (list str)),
    length ias <= fuel ->
    exists r, reduce_loop combine_answers fuel question ias trace = Some r.
Proof.
  induction fuel as [|fuel IH]; intros ias trace Hfuel.
  - destruct ias; [|simpl in Hfuel; lia]. by eexists.
  - cbn [reduce_loop]. destruct (batch_size <? length ias) eqn:E.
    + apply Nat.ltb_lt in E. apply IH.
      rewrite length_map. pose proof (make_batches_shrinks ias E). lia.
    + by eexists.
Qed.

(** With as many rounds allowed as there are answers, the reduction ends
    with a final answer. *)
Lemma reduce_total (ias : list str) :
  exists out, reduce combine_answers (length ias) question ias = Some out.
Proof.
  unfold reduce.
  destruct (reduce_loop_total (length ias) ias [] (le_n _)) as [[last trace] ->].
  by eexists.
Qed.

(** C8. Twelve answers that all pass the usability check are put, in order,
    in three batches of five, five and two; each batch is reduced by one call,
    and one more call reduces the three results to the final answer.  In
    every round the batches hold the usable answers in order, five at most
    in each, and the reduction comes to an end. *)
Theorem reduce_twelve (ias : list str) (fuel : nat) :
  length ias = 12 ->
  Forall (fun ia => check_intermediate_answer ia = true) ias ->
  0 < fuel ->
  let b1 := take 5 ias in
  let b2 := take 5 (drop 5 ias) in
  let b3 := drop 10 ias in
  let reduced := map (final_answer_chain combine_answers question) [b1; b2; b3] in
  ias = b1 ++ b2 ++ b3 /\
  length b1 = 5 /\ length b2 = 5 /\ length b3 = 2 /\
  make_batches ias = [b1; b2; b3] /\
  reduce combine_answers fuel question ias =
    Some {| final_answer := final_answer_chain combine_answers question reduced;
            all_intermediate_answers := [ias; reduced];
            calls := [b1; b2; b3; reduced] |} /\
  (forall l : list str,
     concat (make_batches l) = List.filter check_intermediate_answer l /\
     Forall (fun b => length b <= batch_size) (make_batches l) /\
     exists out, reduce combine_answers (length l) question l = Some out).
Proof.
  intros Hlen Hall Hfuel.
  destruct ias as
    [|x1 [|x2 [|x3 [|x4 [|x5 [|x6 [|x7 [|x8 [|x9 [|x10 [|x11 [|x12 [|x13 ias]]]]]]]]]]]]];
    try discriminate Hlen.
  clear Hlen.
  repeat match goal with
         | H : Forall _ (_ :: _) |- _ => apply Forall_cons in H as [? H]
         end.
  assert (Hb : make_batches [x1; x2; x3; x4; x5; x6; x7; x8; x9; x10; x11; x12]
               = [[x1; x2; x3; x4; x5]; [x6; x7; x8; x9; x10]; [x11; x12]]).
  { unfold make_batches. cbn [fold_left].
    repeat (rewrite batch_step_usable by assumption;
            cbn [length batch_size Nat.leb app]).
    reflexivity. }
  cbn zeta. cbn [take drop app length map].
  split; [reflexivity|]. do 3 (split; [reflexivity|]).
  split; [exact Hb|]. split.
  - unfold reduce. destruct fuel as [|fuel]; [lia|].
    cbn [reduce_loop length batch_size Nat.ltb Nat.leb]. rewrite Hb.
    destruct fuel; reflexivity.
  - intros l. destruct (make_batches_partition l) as [Hcat Hsize].
    split; [exact Hcat|]. split; [exact Hsize|]. apply reduce_total.
Qed.

End Chain.

Lemma reduce_twelve_witness :
  make_batches Sample.twelve_answers =
    [map lit ["a1"; "a2"; "a3"; "a4"; "a5"]%string;
     map lit ["a6"; "a7"; "a8"; "a9"; "a10"]%string;
     map lit ["a11"; "a12"]%string].
Proof.
  apply (reduce_twelve Sample.echo (lit "q") Sample.twelve_answers 1).
  - reflexivity.
  - repeat constructor.
  - lia.
Defined.

End Reduction.

(** ** The clean-up before a recursive summary *)

Module Cleanup.
Import Summary.

(** *** White space at the end of a line *)

Lemma rstrip_all_space (ws : str) :
  forallb isspace ws = true -> rstrip ws = [].
Proof.
  induction ws as [|c ws IH]; [done|]. simpl.
  intros [Hc Hws]%andb_true_iff. by rewrite IH, Hc.
Qed.

Lemma rstrip_app_space (a ws : str) :
  forallb isspace ws = true -> rstrip (a ++ ws) = rstrip a.
Proof.
  intros Hws. induction a as [|c a IH]; simpl.
  - by apply rstrip_all_space.
  - by rewrite IH.
Qed.

Lemma rstrip_decomp (l : str) :
  exists ws, l = rstrip l ++ ws /\ forallb isspace ws = true.
Proof.
  induction l as [|c l (ws & Hl & Hws)]; [by exists []|].
  simpl. destruct (rstrip l) as [|c' r] eqn:E.
  - destruct (isspace c) eqn:Hc.
    + exists (c :: l). split; [done|]. simpl in Hl. subst ws.
      simpl. by rewrite Hc.
    + exists ws. simpl in Hl. by subst l.
  - exists ws. split; [|done]. by rewrite Hl at 1.
Qed.

Lemma rstrip_idem (l : str) : rstrip (rstrip l) = rstrip l.
Proof.
  destruct (rstrip_decomp l) as (ws & Hl & Hws).
  rewrite Hl at 2. by rewrite rstrip_app_space.
Qed.

Lemma strip_rstrip (l : str) : strip (rstrip l) = strip l.
Proof. unfold strip. by rewrite rstrip_idem. Qed.

Lemma rstrip_nil_strip (l : str) : rstrip l = [] -> strip l = [].
Proof. unfold strip. by intros ->. Qed.

Lemma rstrip_nl_free (l : str) : nl_free l -> nl_free (rstrip l).
Proof.
  destruct (rstrip_decomp l) as (ws & Hl & _). unfold nl_free.
  rewrite Hl at 1. by intros [? _]%Forall_app.
Qed.

Lemma digit_not_space (c : ascii) : isdecimal c = true -> isspace c = false.
Proof.
  unfold isdecimal, isspace, in_range.
  rewrite !andb_true_iff, !Nat.leb_le. intros [? ?].
  rewrite !orb_false_iff, !andb_false_iff, !Nat.leb_gt, !Nat.eqb_neq. lia.
Qed.

(** Cutting white space off the end of a text cuts nothing before a
    character that is not white space. *)
Lemma app_space_keeps (u : str) :
  forall (a ws post : str) (d : ascii),
    a ++ ws = u ++ d :: post ->
    isspace d = false ->
    forallb isspace ws = true ->
    exists post', a = u ++ d :: post'.
Proof.
  induction u as [|x u IH]; intros a ws post d Heq Hd Hws.
  - destruct a as [|y a].
    + simpl in Heq. subst ws. simpl in Hws.
      apply andb_true_iff in Hws as [Hd' _]. congruence.
    + injection Heq as -> _. by exists a.
  - destruct a as [|y a].
    + simpl in Heq. subst ws. exfalso.
      assert (Hin : In d (x :: u ++ d :: post))
        by (right; apply in_or_app; right; by left).
      rewrite forallb_forall in Hws. specialize (Hws d Hin). congruence.
    + injection Heq as -> Heq.
      destruct (IH a ws post d Heq Hd Hws) as [post' ->]. by exists post'.
Qed.

(** *** The chunk marker *)

Lemma skip_digits_spec (s : str) :
  exists ds, s = ds ++ skip_digits s /\ forallb isdecimal ds = true.
Proof.
  induction s as [|c s (ds & Hs & Hds)]; [by exists []|].
  simpl. destruct (isdecimal c) eqn:Hc.
  - exists (c :: ds). simpl. rewrite Hc. split; [by f_equal|done].
  - by exists [].
Qed.

Lemma skip_digits_app (ds t : str) :
  forallb isdecimal ds = true ->
  skip_digits (ds ++ slash :: t) = slash :: t.
Proof.
  induction ds as [|c ds IH]; [done|]. simpl.
  intros [Hc Hds]%andb_true_iff. rewrite Hc. by apply IH.
Qed.

Lemma chunk_here_spec (s : str) :
  chunk_here s = true <->
    exists ds d post,
      s = lit "- Chunk " ++ ds ++ slash :: d :: post /\
      ds <> [] /\ forallb isdecimal ds = true /\ isdecimal d = true.
Proof.
  unfold chunk_here. split.
  - destruct (strip_prefix (lit "- Chunk ") s) as [r1|] eqn:E1; [|done].
    apply strip_prefix_app in E1. subst s.
    destruct r1 as [|x r]; [done|]. cbn [digits1].
    destruct (isdecimal x) eqn:Hx; [|done].
    destruct (skip_digits_spec r) as (ds & Hr & Hds).
    destruct (skip_digits r) as [|c [|d post]] eqn:E2; try done.
    intros [Hc Hd]%andb_true_iff. apply Ascii.eqb_eq in Hc. subst c.
    exists (x :: ds), d, post. rewrite Hr at 1.
    split; [done|]. split; [done|]. split; [|done]. simpl. by rewrite Hx.
  - intros (ds & d & post & -> & Hne & Hds & Hd).
    rewrite (proj2 (strip_prefix_app _ _ (ds ++ slash :: d :: post)) eq_refl).
    destruct ds as [|x ds]; [done|]. simpl in Hds.
    apply andb_true_iff in Hds as [Hx Hds].
    cbn [app digits1]. rewrite Hx, skip_digits_app by done.
    by rewrite Ascii.eqb_refl, Hd.
Qed.

Lemma re_search_chunk_spec (l : str) :
  re_search_chunk l = true <-> has_chunk_marker l.
Proof.
  unfold has_chunk_marker. induction l as [|c l IH].
  - change (re_search_chunk []) with (chunk_here [] || false).
    rewrite orb_false_r, chunk_here_spec. split.
    + intros (ds & d & post & Heq & ?). by exists [], ds, d, post.
    + intros (pre & ds & d & post & Heq & ?). by destruct pre.
  - change (re_search_chunk (c :: l))
      with (chunk_here (c :: l) || re_search_chunk l).
    rewrite orb_true_iff, chunk_here_spec, IH. split.
    + intros [(ds & d & post & Heq & ?)|(pre & ds & d & post & Heq & ?)].
      * by exists [], ds, d, post.
      * exists (c :: pre), ds, d, post. split; [|done]. by rewrite Heq.
    + intros (pre & ds & d & post & Heq & ?). destruct pre as [|c' pre].
      * left. by exists ds, d, post.
      * right. injection Heq as -> ->. by exists pre, ds, d, post.
Qed.

(** White space at the end of a line neither makes nor hides a chunk
    marker. *)
Lemma re_search_chunk_app_space (a ws : str) :
  forallb isspace ws = true ->
  re_search_chunk (a ++ ws) = re_search_chunk a.
Proof.
  intros Hws. apply eq_true_iff_eq. rewrite !re_search_chunk_spec. split.
  - intros (pre & ds & d & post & Heq & Hne & Hds & Hd).
    destruct (app_space_keeps (pre ++ lit "- Chunk " ++ ds ++ [slash])
                a ws post d) as [post' Ha].
    + rewrite Heq, <- !app_assoc. done.
    + by apply digit_not_space.
    + done.
    + exists pre, ds, d, post'. rewrite Ha, <- !app_assoc. done.
  - intros (pre & ds & d & post & -> & ?).
    exists pre, ds, d, (post ++ ws). by rewrite <- !app_assoc.
Qed.

Lemma is_marker_rstrip (l : str) : is_marker (rstrip l) = is_marker l.
Proof.
  unfold is_marker, is_separator, is_recursion_block.
  rewrite strip_rstrip. f_equal. f_equal.
  destruct (rstrip_decomp l) as (ws & Hl & Hws).
  rewrite Hl at 2. by rewrite re_search_chunk_app_space.
Qed.

(** *** Lines *)

Lemma split_nl_nonempty (s : str) : split_nl s <> [].
Proof.
  induction s as [|c s IH]; [done|]. simpl.
  destruct (Ascii.eqb c newline); [done|]. by destruct (split_nl s).
Qed.

Lemma split_nl_nl_free (s : str) : Forall nl_free (split_nl s).
Proof.
  induction s as [|c s IH]; simpl.
  - repeat constructor.
  - destruct (Ascii.eqb c newline) eqn:E.
    + constructor; [constructor|done].
    + apply Ascii.eqb_neq in E. destruct (split_nl s) as [|l ls].
      * repeat constructor. done.
      * inversion IH; subst. constructor; [by constructor|done].
Qed.

Lemma split_nl_line (l : str) : nl_free l -> split_nl l = [l].
Proof.
  induction 1 as [|c l Hc _ IH]; [done|]. simpl.
  apply Ascii.eqb_neq in Hc. by rewrite Hc, IH.
Qed.

Lemma split_nl_app (l t : str) :
  nl_free l -> split_nl (l ++ newline :: t) = l :: split_nl t.
Proof.
  induction 1 as [|c l Hc _ IH]; [done|].
  cbn [app split_nl]. apply Ascii.eqb_neq in Hc. by rewrite Hc, IH.
Qed.

Lemma split_join (ls : list str) :
  Forall nl_free ls -> ls <> [] -> split_nl (join_nl ls) = ls.
Proof.
  induction 1 as [|l ls Hl Hls IH]; [done|]. intros _.
  destruct ls as [|l' ls].
  - by apply split_nl_line.
  - change (join_nl (l :: l' :: ls)) with (l ++ newline :: join_nl (l' :: ls)).
    rewrite split_nl_app by done. by rewrite IH.
Qed.

(** *** The loop and the filter *)

Lemma blank_markers_none (ls : list str) :
  Forall (fun l => is_marker l = false) ls -> blank_markers ls = map Some ls.
Proof.
  induction 1 as [|l ls Hl _ IH]; [done|].
  unfold is_marker in Hl. apply orb_false_iff in Hl as [Hl Hr].
  apply orb_false_iff in Hl as [Hs Hc].
  cbn [blank_markers map]. by rewrite Hs, Hc, Hr, IH.
Qed.

Lemma blank_markers_kept (sp : list str) (l : str) :
  Some l ∈ blank_markers sp -> l ∈ sp /\ is_marker l = false.
Proof.
  induction sp as [|x sp IH]; [by intros ?%elem_of_nil|].
  cbn [blank_markers].
  destruct (is_separator x) eqn:Hs.
  { intros [?|Hin]%elem_of_cons; [done|].
    destruct (IH Hin). split; [by right|done]. }
  destruct (re_search_chunk x) eqn:Hc.
  { intros [?|Hin]%elem_of_cons; [done|].
    destruct (IH Hin). split; [by right|done]. }
  destruct (is_recursion_block x) eqn:Hr.
  { intros [?|Hin]%elem_of_cons; [done|]. exfalso.
    change (map ?f ?k) with (f <$> k) in Hin.
    apply list_elem_of_fmap in Hin as (? & ? & _). done. }
  intros [[= ->]|Hin]%elem_of_cons.
  - split; [by left|]. unfold is_marker. by rewrite Hs, Hc, Hr.
  - destruct (IH Hin). split; [by right|done].
Qed.

Lemma kept_lines_elem (sp : list (option str)) (r : str) :
  r ∈ kept_lines sp -> exists l, Some l ∈ sp /\ l <> [] /\ r = rstrip l.
Proof.
  unfold kept_lines. rewrite list_elem_of_omap.
  intros ([[|c l]|] & Hin & Heq); try done.
  injection Heq as <-. by exists (c :: l).
Qed.

Lemma kept_lines_Some (ls : list str) :
  Forall (fun l => rstrip l = l) ls ->
  kept_lines (map Some ls) = List.filter nonempty ls.
Proof.
  unfold kept_lines. induction 1 as [|l ls Hl _ IH]; [done|].
  cbn [map omap list_omap List.filter]. destruct l as [|c l].
  - exact IH.
  - cbn [nonempty]. rewrite Hl. simpl. f_equal. exact IH.
Qed.

(** The lines the clean-up leaves are clean. *)
Lemma clean_lines_of (x : str) :
  Forall clean_line (kept_lines (blank_markers (split_nl x))).
Proof.
  apply Forall_forall. intros r Hr.
  apply kept_lines_elem in Hr as (l & Hin & _ & ->).
  apply blank_markers_kept in Hin as [Hin Hm].
  pose proof (split_nl_nl_free x) as Hfree. rewrite Forall_forall in Hfree.
  split; [by apply rstrip_nl_free, Hfree|]. split.
  - by rewrite is_marker_rstrip.
  - apply rstrip_idem.
Qed.

(** On a text made of clean lines the clean-up only drops the empty ones. *)
Lemma clean_summary_join (ls : list str) :
  Forall clean_line ls ->
  clean_summary (join_nl ls) = join_nl (List.filter nonempty ls).
Proof.
  intros Hclean. unfold clean_summary. destruct ls as [|l ls]; [done|].
  rewrite split_join; [|by eapply Forall_impl; [exact Hclean|intros ? [? _]]|done].
  rewrite blank_markers_none
    by (eapply Forall_impl; [exact Hclean|by intros ? (_ & ? & _)]).
  rewrite kept_lines_Some
    by (eapply Forall_impl; [exact Hclean|by intros ? (_ & _ & ?)]).
  done.
Qed.

Lemma filter_nonempty_id (ls : list str) :
  Forall (fun l => l <> []) ls -> List.filter nonempty ls = ls.
Proof.
  induction 1 as [|l ls Hl _ IH]; [done|]. simpl.
  destruct l; [done|]. simpl. by rewrite IH.
Qed.

Lemma filter_nonempty_idem (ls : list str) :
  List.filter nonempty (List.filter nonempty ls) = List.filter nonempty ls.
Proof.
  apply filter_nonempty_id. apply Forall_forall. intros l Hin.
  apply list_elem_of_In, filter_In in Hin as [_ Hne]. by destruct l.
Qed.

Lemma filter_clean (ls : list str) :
  Forall clean_line ls -> Forall clean_line (List.filter nonempty ls).
Proof.
  rewrite !Forall_forall. intros H l Hin. apply H.
  apply list_elem_of_In, filter_In in Hin as [Hin _]. by apply list_elem_of_In.
Qed.

(** A second pass drops the lines the first pass has emptied. *)
Lemma clean_summary_twice (x : str) :
  clean_summary (clean_summary x) =
    join_nl (List.filter nonempty (kept_lines (blank_markers (split_nl x)))).
Proof.
  unfold clean_summary at 2. apply clean_summary_join, clean_lines_of.
Qed.

(** From the second pass on nothing changes any more. *)
Lemma clean_summary_thrice (x : str) :
  clean_summary (clean_summary (clean_summary x)) =
    clean_summary (clean_summary x).
Proof.
  rewrite (clean_summary_twice x).
  rewrite clean_summary_join by apply filter_clean, clean_lines_of.
  by rewrite filter_nonempty_idem.
Qed.

Lemma kept_lines_nonempty (x : str) :
  Forall (fun l => ~ blank_line l) (split_nl x) ->
  Forall (fun r => r <> []) (kept_lines (blank_markers (split_nl x))).
Proof.
  intros Hblank. apply Forall_forall. intros r Hr Hnil.
  apply kept_lines_elem in Hr as (l & Hin & Hne & ->).
  apply blank_markers_kept in Hin as [Hin _].
  rewrite Forall_forall in Hblank. apply (Hblank l Hin).
  split; [done|]. by apply rstrip_nil_strip.
Qed.

(** C4. On a text none of whose lines is made of white space only, cleaning
    twice gives what cleaning once gives, also with the assertions; on every
    text a second pass only drops the lines that the first pass emptied, and
    a third pass changes nothing. *)
Theorem clean_summary_idempotent (x : str) :
  Forall (fun l => ~ blank_line l) (split_nl x) ->
  clean_summary (clean_summary x) = clean_summary x /\
  (forall y, clean_summary_checked x = Ok y -> clean_summary_checked y = Ok y) /\
  (forall z : str,
     clean_summary (clean_summary z) =
       join_nl (List.filter nonempty (split_nl (clean_summary z))) /\
     clean_summary (clean_summary (clean_summary z)) =
       clean_summary (clean_summary z)).
Proof.
  intros Hblank.
  assert (Hidem : clean_summary (clean_summary x) = clean_summary x).
  { rewrite clean_summary_twice.
    by rewrite filter_nonempty_id by by apply kept_lines_nonempty. }
  split; [exact Hidem|]. split.
  - intros y Hy. unfold clean_summary_checked in *.
    assert (y = clean_summary x) as ->
      by (repeat case_match; congruence).
    rewrite Hidem. exact Hy.
  - intros z. split; [|apply clean_summary_thrice].
    rewrite clean_summary_twice. unfold clean_summary at 1.
    pose proof (clean_lines_of z) as Hclean.
    destruct (kept_lines (blank_markers (split_nl z))) as [|l ls] eqn:E.
    + reflexivity.
    + rewrite split_join; [done| |done].
      eapply Forall_impl; [exact Hclean|]. by intros ? [? _].
Qed.

Lemma clean_summary_idempotent_witness :
  clean_summary (clean_summary Sample.marked_summary) =
    clean_summary Sample.marked_summary.
Proof.
  apply (clean_summary_idempotent Sample.marked_summary).
  vm_compute split_nl.
  repeat constructor; intros [Hne Hs]; vm_compute in Hs; congruence.
Defined.

(** A line of white space survives the first pass as an empty line, which
    the second pass drops: the clean-up is not idempotent on
    [blank_between], and the assertions accept both passes. *)
Lemma clean_summary_not_idempotent :
  clean_summary Sample.blank_between = join_nl (map lit ["- a"; ""; "- b"]%string) /\
  clean_summary (clean_summary Sample.blank_between) =
    join_nl (map lit ["- a"; "- b"]%string) /\
  clean_summary (clean_summary Sample.blank_between) <>
    clean_summary Sample.blank_between /\
  clean_summary_checked Sample.blank_between =
    Ok (join_nl (map lit ["- a"; ""; "- b"]%string)).
Proof.
  split; [vm_compute; reflexivity|]. split; [vm_compute; reflexivity|].
  split; [vm_compute; discriminate|]. vm_compute; reflexivity.
Qed.

End Cleanup.

(** ** [format_chat_history] *)

Module ChatHistory.
Import Summary Chat.

Lemma format_from (chat_history : list turn) (buffer : str) :
  fold_left
    (fun buffer dialogue_turn =>
       buffer ++ newline :: join_nl (turn_lines dialogue_turn))
    chat_history buffer
  = buffer ++ format_chat_history chat_history.
Proof.
  unfold format_chat_history. revert buffer.
  induction chat_history as [|t h IH]; intros buffer; cbn [fold_left].
  - by rewrite app_nil_r.
  - rewrite IH, (IH ([] ++ _)). by rewrite app_assoc.
Qed.

(** X1. The history of a conversation that goes on is the history so far
    followed by the text of the new turns; an empty history is the empty
    text. *)
Theorem format_chat_history_app (h1 h2 : list turn) :
  format_chat_history (h1 ++ h2) =
    format_chat_history h1 ++ format_chat_history h2 /\
  format_chat_history [] = [].
Proof.
  split; [|reflexivity].
  unfold format_chat_history at 1. rewrite fold_left_app.
  fold (format_chat_history h1). apply format_from.
Qed.

Lemma join_nl_app (l1 l2 : list str) :
  l1 <> [] -> l2 <> [] ->
  join_nl (l1 ++ l2) = join_nl l1 ++ newline :: join_nl l2.
Proof.
  intros H1 H2. induction l1 as [|a l1 IH]; [done|].
  destruct l1 as [|b l1].
  - destruct l2; [done|]. reflexivity.
  - change (join_nl ((a :: b :: l1) ++ l2))
      with (a ++ newline :: join_nl ((b :: l1) ++ l2)).
    rewrite IH by done.
    change (join_nl (a :: b :: l1)) with (a ++ newline :: join_nl (b :: l1)).
    by rewrite <- app_assoc.
Qed.

Lemma format_join (chat_history : list turn) :
  format_chat_history chat_history =
    join_nl ([] :: concat (map turn_lines chat_history)).
Proof.
  induction chat_history as [|t h IH] using rev_ind; [done|].
  rewrite (proj1 (format_chat_history_app h [t])), IH.
  rewrite map_app, concat_app. cbn [map concat]. rewrite app_nil_r.
  rewrite app_comm_cons, join_nl_app by done.
  reflexivity.
Qed.

Lemma nl_free_app (a b : str) : nl_free a -> nl_free b -> nl_free (a ++ b).
Proof. unfold nl_free. intros. by apply Forall_app. Qed.

Lemma nl_free_lit_human : nl_free (lit "Human: ") /\ nl_free (lit "Assistant: ").
Proof. split; repeat constructor; discriminate. Qed.

(** X2. When no turn holds a line break, the text reads back line by line: an
    empty first line, then for each turn its [Human: ] line and its
    [Assistant: ] line, in order. *)
Theorem format_chat_history_lines (chat_history : list turn) :
  Forall (fun t => nl_free (fst t) /\ nl_free (snd t)) chat_history ->
  split_nl (format_chat_history chat_history) =
    [] :: concat (map turn_lines chat_history) /\
  length (split_nl (format_chat_history chat_history)) =
    1 + 2 * length chat_history.
Proof.
  intros Hfree.
  assert (Hsplit : split_nl (format_chat_history chat_history) =
                   [] :: concat (map turn_lines chat_history)).
  { rewrite format_join. apply Cleanup.split_join; [|done].
    constructor; [constructor|].
    induction Hfree as [|t h [H1 H2] _ IH]; [constructor|].
    cbn [map concat turn_lines app].
    destruct nl_free_lit_human as [Hh Ha].
    constructor; [by apply nl_free_app|].
    constructor; [by apply nl_free_app|done]. }
  split; [exact Hsplit|]. rewrite Hsplit. cbn [length]. f_equal.
  clear. induction chat_history as [|t h IH]; [done|].
  cbn [map concat turn_lines app length]. rewrite IH. lia.
Qed.

Lemma format_chat_history_lines_witness :
  split_nl (format_chat_history [(lit "hi", lit "hello"); (lit "why?", lit "so")])
  = map lit [""; "Human: hi"; "Assistant: hello";
             "Human: why?"; "Assistant: so"]%string.
Proof.
  apply (format_chat_history_lines
           [(lit "hi", lit "hello"); (lit "why?", lit "so")]).
  repeat constructor; discriminate.
Defined.

End ChatHistory.

(** ** [_query]: the answers and documents reported as relevant *)

Module RelevantAnswers.
Import Query Relevant.

(** The usable answers with their documents, position by position. *)
Lemma relevant_loop_ok (docs : list Document) (answers : list str) :
  forall (acc : list Document * list str) (i : nat),
    i + length answers <= length docs ->
    relevant_loop docs acc i answers =
      Ok (acc.1 ++
            (List.filter (fun p => check_intermediate_answer (snd p))
               (zip (drop i docs) answers)).*1,
          acc.2 ++ List.filter check_intermediate_answer answers).
Proof.
  induction answers as [|a rest IH]; intros [ds us] i Hlen.
  - simpl. destruct (drop i docs); simpl; by rewrite !app_nil_r.
  - simpl in Hlen.
    destruct (lookup_lt_is_Some_2 docs i ltac:(lia)) as [d Hd].
    cbn [relevant_loop]. unfold relevant_step. rewrite Hd.
    rewrite (drop_S _ _ _ Hd). cbn [zip zip_with List.filter snd fst].
    destruct (check_intermediate_answer a); cbn [bind];
      rewrite IH by lia; cbn [fst snd fmap list_fmap];
      by rewrite <- ?app_assoc.
Qed.

Lemma usable_pairs_snd (docs : list Document) :
  forall answers : list str,
    length answers <= length docs ->
    (List.filter (fun p => check_intermediate_answer (snd p))
       (zip docs answers)).*2
    = List.filter check_intermediate_answer answers.
Proof.
  induction docs as [|d docs IH]; intros answers Hlen.
  - destruct answers; [done|simpl in Hlen; lia].
  - destruct answers as [|a answers]; [done|]. simpl in *.
    destruct (check_intermediate_answer a); simpl; rewrite IH; (done || lia).
Qed.

(** X3. With a document for every answer, the loop returns the usable answers,
    in order, and beside each of them the document it was made from: the
    two lists have the same length and pair up as in the input. *)
Theorem relevant_aligned (docs : list Document) (answers : list str) :
  length answers <= length docs ->
  exists ds us,
    relevant docs answers = Ok (ds, us) /\
    us = List.filter check_intermediate_answer answers /\
    length ds = length us /\
    zip ds us =
      List.filter (fun p => check_intermediate_answer (snd p))
        (zip docs answers).
Proof.
  intros Hlen. unfold relevant. rewrite relevant_loop_ok by (simpl; lia).
  cbn [fst snd app drop].
  set (sel := List.filter (fun p => check_intermediate_answer (snd p))
                (zip docs answers)).
  assert (Hsnd : sel.*2 = List.filter check_intermediate_answer answers)
    by by apply usable_pairs_snd.
  exists (sel.*1), (sel.*2). rewrite Hsnd.
  split; [done|]. split; [done|]. split.
  - rewrite <- Hsnd. by rewrite !length_fmap.
  - rewrite <- Hsnd. apply zip_fst_snd.
Qed.

Lemma relevant_aligned_witness :
  exists ds us,
    relevant Sample.three_docs (map lit ["yes"; "IRRELEVANT"; "no"]%string)
      = Ok (ds, us) /\
    us = map lit ["yes"; "no"]%string /\
    length ds = length us.
Proof.
  destruct (relevant_aligned Sample.three_docs
              (map lit ["yes"; "IRRELEVANT"; "no"]%string))
    as (ds & us & Hrun & Hus & Hlen & _).
  - simpl. lia.
  - exists ds, us. split; [exact Hrun|]. split; [exact Hus|exact Hlen].
Defined.

End RelevantAnswers.

(** ** [_query]: bounds of the reduction and of the relevant lists *)

Module QueryBounds.
Import Query Reduce Relevant.

Lemma relevant_loop_error (docs : list Document) (answers : list str) :
  forall (acc : list Document * list str) (i : nat),
    (relevant_loop docs acc i answers = Raise IndexError <->
       exists j a, answers !! j = Some a /\
                   check_intermediate_answer a = true /\
                   length docs <= i + j) /\
    (forall e, relevant_loop docs acc i answers = Raise e -> e = IndexError).
Proof.
  induction answers as [|a rest IH]; intros acc i.
  - split; [|done]. split; [done|]. by intros (j & b & Hj & _).
  - cbn [relevant_loop]. unfold relevant_step.
    destruct (check_intermediate_answer a) eqn:Ha.
    + destruct (docs !! i) as [d|] eqn:Hd; cbn [bind].
      * apply lookup_lt_Some in Hd.
        destruct (IH (acc.1 ++ [d], acc.2 ++ [a]) (S i)) as [IH1 IH2].
        split; [|exact IH2]. rewrite IH1. split.
        -- intros (j & b & Hj & Hb & Hlen). exists (S j), b.
           split; [done|]. split; [done|lia].
        -- intros (j & b & Hj & Hb & Hlen). destruct j as [|j]; [lia|].
           exists j, b. split; [done|]. split; [done|lia].
      * apply lookup_ge_None in Hd. split; [|by intros e [= <-]].
        split; [|done]. intros _. exists 0, a.
        split; [done|]. split; [done|lia].
    + cbn [bind]. destruct (IH acc (S i)) as [IH1 IH2].
      split; [|exact IH2]. rewrite IH1. split.
      * intros (j & b & Hj & Hb & Hlen). exists (S j), b.
        split; [done|]. split; [done|lia].
      * intros (j & b & Hj & Hb & Hlen). destruct j as [|j].
        -- simpl in Hj. injection Hj as <-. congruence.
        -- exists j, b. split; [done|]. split; [done|lia].
Qed.

(** X4. The loop over the answers fails only by reading past the end of
    [filtered_docs], and does so exactly when a usable answer stands at a
    position that has no document. *)
Theorem relevant_index_error (docs : list Document) (answers : list str) :
  (relevant docs answers = Raise IndexError <->
     exists j a, answers !! j = Some a /\
                 check_intermediate_answer a = true /\
                 length docs <= j) /\
  (forall e, relevant docs answers = Raise e -> e = IndexError).
Proof.
  unfold relevant. destruct (relevant_loop_error docs answers ([], []) 0)
    as [H1 H2].
  split; [|exact H2]. exact H1.
Qed.

Section Chain.

Variable combine_answers : str -> str -> str.
Variable question : str.

Lemma reduce_loop_bounded (fuel : nat) :
  forall (ias : list str) (trace : list (list str)) last trace',
    reduce_loop combine_answers fuel question ias trace = Some (last, trace') ->
    Forall (fun c => length c <= batch_size) trace ->
    Forall (fun c => length c <= batch_size) trace' /\
    length last <= batch_size.
Proof.
  induction fuel as [|fuel IH]; intros ias trace last trace';
    cbn [reduce_loop]; destruct (batch_size <? length ias) eqn:E;
    try done; intros Hrun Htrace.
  - injection Hrun as <- <-. apply Nat.ltb_ge in E. done.
  - apply IH in Hrun; [done|]. apply Forall_app. split; [done|].
    apply Reduction.make_batches_partition.
  - injection Hrun as <- <-. apply Nat.ltb_ge in E. done.
Qed.

(** X5. Whatever the number of answers, the reduction comes to an end, the
    model is called at least once, and no call is given more than five
    answers to combine. *)
Theorem reduce_calls_bounded (ias : list str) :
  exists out,
    reduce combine_answers (length ias) question ias = Some out /\
    calls out <> [] /\
    Forall (fun c => length c <= batch_size) (calls out).
Proof.
  unfold reduce.
  destruct (Reduction.reduce_loop_total combine_answers question
              (length ias) ias [] (le_n _)) as [[last trace] Hrun].
  rewrite Hrun. eexists. split; [reflexivity|]. cbn [calls].
  apply reduce_loop_bounded in Hrun as [Htrace Hlast]; [|constructor].
  split; [by destruct trace|].
  apply Forall_app. split; [done|]. by apply Forall_singleton.
Qed.

(** X6. With five answers at most there is one call, and the final answer is
    what the model makes of the answers reported as relevant. *)
Theorem reduce_few_answers (docs : list Document) (answers : list str)
    (fuel : nat) :
  length answers <= batch_size ->
  length answers <= length docs ->
  exists ds us,
    relevant docs answers = Ok (ds, us) /\
    reduce combine_answers fuel question answers =
      Some {| final_answer := combine_answers question (Summary.join_nl us);
              all_intermediate_answers := [answers; answers];
              calls := [answers] |}.
Proof.
  intros Hfew Hdocs.
  destruct (RelevantAnswers.relevant_aligned docs answers Hdocs)
    as (ds & us & Hrun & -> & _).
  exists ds, (List.filter check_intermediate_answer answers).
  split; [exact Hrun|]. unfold reduce.
  assert (Hloop : reduce_loop combine_answers fuel question answers []
                  = Some (answers, [])).
  { destruct fuel; cbn [reduce_loop];
      by rewrite (proj2 (Nat.ltb_ge _ _) Hfew). }
  by rewrite Hloop.
Qed.

End Chain.

Lemma reduce_few_answers_witness :
  exists ds us,
    relevant Sample.three_docs (map lit ["yes"; "IRRELEVANT"; "no"]%string)
      = Ok (ds, us) /\
    reduce Sample.echo 0 (lit "q") (map lit ["yes"; "IRRELEVANT"; "no"]%string)
      = Some {| final_answer := Sample.echo (lit "q") (Summary.join_nl us);
                all_intermediate_answers :=
                  [map lit ["yes"; "IRRELEVANT"; "no"]%string;
                   map lit ["yes"; "IRRELEVANT"; "no"]%string];
                calls := [map lit ["yes"; "IRRELEVANT"; "no"]%string] |}.
Proof.
  apply (reduce_few_answers Sample.echo (lit "q") Sample.three_docs
           (map lit ["yes"; "IRRELEVANT"; "no"]%string) 0).
  - unfold batch_size. simpl. lia.
  - simpl. lia.
Defined.

End QueryBounds.

(** ** [_summary_task]: the tokens of the documents, by path *)

Module TokenCount.
Import Loader Tokens.

Section Count.

Variable get_tkn_length : str -> nat.

Abbreviation tokens := (fun d : Document => get_tkn_length (page_content d)).

Lemma total_insert_fresh (m : gmap str nat) (p : str) (v : nat) :
  m !! p = None -> total (<[p := v]> m) = v + total m.
Proof.
  intros Hp. unfold total. rewrite map_fold_insert_L; [done| |done].
  intros. lia.
Qed.

Lemma total_insert_add (m : gmap str nat) (p : str) (v w : nat) :
  m !! p = Some v -> total (<[p := v + w]> m) = w + total m.
Proof.
  intros Hp. rewrite <- (insert_delete_eq m).
  rewrite total_insert_fresh by apply lookup_delete_eq.
  rewrite <- (insert_delete_id m p v Hp) at 2.
  rewrite total_insert_fresh by apply lookup_delete_eq. lia.
Qed.

Lemma tokens_of_path_cons (p : str) (d : Document) (docs : list Document) :
  tokens_of_path get_tkn_length p (d :: docs) =
    (if bool_decide (path_of d = Some p) then tokens d else 0)
    + tokens_of_path get_tkn_length p docs.
Proof.
  unfold tokens_of_path. cbn [List.filter].
  by destruct (bool_decide (path_of d = Some p)).
Qed.

(** What one step does to the entries and to their sum. *)
Lemma tkn_step_spec (m : gmap str nat) (d : Document) (p : str) :
  path_of d = Some p ->
  exists m',
    tkn_step get_tkn_length m d = Ok m' /\
    total m' = tokens d + total m /\
    (forall q, default 0 (m' !! q) =
               (if bool_decide (path_of d = Some q) then tokens d else 0)
               + default 0 (m !! q)) /\
    (forall q, is_Some (m' !! q) <-> q = p \/ is_Some (m !! q)).
Proof.
  intros Hp. unfold tkn_step. rewrite (Dedup.meta_path d p Hp). cbn [bind].
  destruct (m !! p) as [v|] eqn:Hm; eexists; (split; [reflexivity|]).
  - split; [by apply total_insert_add|]. split.
    + intros q. rewrite Hp. case_bool_decide as Hq.
      * injection Hq as <-. rewrite lookup_insert_eq, Hm. simpl. lia.
      * rewrite lookup_insert_ne by congruence. done.
    + intros q. destruct (decide (p = q)) as [<-|Hne].
      * rewrite lookup_insert_eq. split; [by left|by eexists].
      * rewrite lookup_insert_ne by done. split; [by right|].
        by intros [?|?].
  - split; [by apply total_insert_fresh|]. split.
    + intros q. rewrite Hp. case_bool_decide as Hq.
      * injection Hq as <-. rewrite lookup_insert_eq, Hm. simpl. lia.
      * rewrite lookup_insert_ne by congruence. done.
    + intros q. destruct (decide (p = q)) as [<-|Hne].
      * rewrite lookup_insert_eq. split; [by left|by eexists].
      * rewrite lookup_insert_ne by done. split; [by right|].
        by intros [?|?].
Qed.

Lemma tkn_loop_spec (docs : list Document) :
  Forall (fun d => is_Some (path_of d)) docs ->
  forall m : gmap str nat,
  exists m',
    tkn_loop get_tkn_length m docs = Ok m' /\
    total m' = sum_list (map tokens docs) + total m /\
    (forall q, default 0 (m' !! q) =
               tokens_of_path get_tkn_length q docs + default 0 (m !! q)) /\
    (forall q, is_Some (m' !! q) <->
               Some q ∈ map path_of docs \/ is_Some (m !! q)).
Proof.
  induction 1 as [|d docs [p Hp] _ IH]; intros m.
  - exists m. split; [done|]. split; [done|]. split; [done|].
    intros q. split; [by right|]. intros [Hin|?]; [|done].
    by apply elem_of_nil in Hin.
  - destruct (tkn_step_spec m d p Hp) as (m1 & Hstep & Ht1 & Hv1 & Hd1).
    destruct (IH m1) as (m' & Hrun & Ht & Hv & Hd).
    exists m'. cbn [tkn_loop]. rewrite Hstep. cbn [bind].
    split; [exact Hrun|]. split; [|split].
    + rewrite Ht, Ht1. simpl. lia.
    + intros q. rewrite Hv, Hv1, tokens_of_path_cons. lia.
    + intros q. rewrite Hd, Hd1. cbn [map]. rewrite elem_of_cons, Hp.
      split.
      * intros [?|[->|?]]; [left; by right|left; by left|by right].
      * intros [[[= ->]|?]|?]; [right; by left|by left|right; by right].
Qed.

(** X7. When every document has a path, the count succeeds; the entry of a path
    is the sum of the tokens of the documents of that path, paths without a
    document have no entry, and the total is the sum of the tokens of all
    the documents. *)
Theorem count_tokens_spec (docs : list Document) :
  Forall (fun d => is_Some (path_of d)) docs ->
  exists docs_tkn_cost full_tkn,
    count_tokens get_tkn_length docs = Ok (docs_tkn_cost, full_tkn) /\
    full_tkn = sum_list (map tokens docs) /\
    (forall p, Some p ∈ map path_of docs ->
       docs_tkn_cost !! p = Some (tokens_of_path get_tkn_length p docs)) /\
    (forall p, Some p ∉ map path_of docs -> docs_tkn_cost !! p = None).
Proof.
  intros Hpaths. destruct (tkn_loop_spec docs Hpaths ∅)
    as (m & Hrun & Ht & Hv & Hd).
  exists m, (total m). unfold count_tokens. rewrite Hrun. cbn [bind].
  split; [done|]. split; [|split].
  - rewrite Ht. unfold total. rewrite map_fold_empty. lia.
  - intros p Hin. specialize (Hv p).
    destruct (proj2 (Hd p) (or_introl Hin)) as [v Hm].
    rewrite Hm in Hv |- *. rewrite lookup_empty in Hv. simpl in Hv.
    f_equal. lia.
  - intros p Hnin. destruct (m !! p) as [v|] eqn:Hm; [|done].
    exfalso. destruct (proj1 (Hd p) (mk_is_Some _ _ Hm)) as [?|Hs]; [done|].
    rewrite lookup_empty in Hs. by destruct Hs.
Qed.

(** X8. A document without a path stops the count with a [KeyError]. *)
Theorem count_tokens_missing_path (docs : list Document) :
  Exists (fun d => path_of d = None) docs ->
  count_tokens get_tkn_length docs = Raise KeyError.
Proof.
  intros Hex. unfold count_tokens.
  assert (Hloop : forall m, tkn_loop get_tkn_length m docs = Raise KeyError).
  { induction Hex as [d docs Hd|d docs _ IH]; intros m; cbn [tkn_loop].
    - unfold tkn_step, meta. unfold path_of in Hd. by rewrite Hd.
    - destruct (tkn_step get_tkn_length m d) as [m1|e] eqn:Hstep; cbn [bind].
      + apply IH.
      + unfold tkn_step, meta in Hstep.
        destruct (metadata d !! lit "path"); [|by injection Hstep as <-].
        cbn [bind] in Hstep. by destruct (m !! _). }
  by rewrite Hloop.
Qed.

End Count.

Lemma count_tokens_spec_witness :
  exists docs_tkn_cost full_tkn,
    count_tokens (fun s => length s) Sample.shared_chunk
      = Ok (docs_tkn_cost, full_tkn) /\
    full_tkn = 12.
Proof.
  destruct (count_tokens_spec (fun s => length s) Sample.shared_chunk)
    as (m & n & Hrun & Hn & _).
  - repeat constructor; eexists; vm_compute; reflexivity.
  - exists m, n. split; [exact Hrun|]. rewrite Hn. reflexivity.
Defined.

Lemma count_tokens_missing_path_witness :
  count_tokens (fun s => length s)
    [Sample.a1; {| page_content := lit "x"; metadata_id := 9; metadata := ∅ |}]
  = Raise KeyError.
Proof.
  apply (count_tokens_missing_path (fun s => length s)).
  apply Exists_cons_tl, Exists_cons_hd. reflexivity.
Defined.

End TokenCount.

(** ** More on the duplicate hashes *)

Module DedupEdges.
Import Loader.

(** Distinct hashes: the list is returned as it is and nothing is logged. *)
Lemma dedup_distinct (docs : list Document) :
  NoDup (map metadata_id docs) ->
  Forall has_meta docs ->
  NoDup (hashes_of docs) ->
  dedup docs = Ok (docs, []).
Proof.
  intros Hids Hmeta Hnd. unfold dedup.
  destruct (length docs <=? 1); [done|].
  rewrite (proj2 (Dedup.remove_dups_length (map metadata_id docs)) Hids).
  rewrite Nat.eqb_refl. cbn [negb].
  rewrite (Dedup.mapR_hash docs Hmeta). cbn [bind].
  rewrite (proj2 (Dedup.remove_dups_length (hashes_of docs)) Hnd).
  by rewrite Nat.eqb_refl.
Qed.

Lemma keep_last_distinct (docs : list Document) :
  NoDup (map hash_of docs) -> keep_last docs = docs.
Proof.
  induction docs as [|d docs IH]; [done|]. cbn [map keep_last].
  intros [Hd Hnd]%NoDup_cons. rewrite bool_decide_eq_false_2 by done.
  by rewrite IH.
Qed.

Lemma hashes_NoDup (docs : list Document) :
  Forall has_meta docs ->
  NoDup (map hash_of docs) <-> NoDup (hashes_of docs).
Proof.
  intros Hmeta. rewrite (Dedup.hashes_of_fmap docs Hmeta).
  change (map Some ?l) with (Some <$> l).
  split; [apply NoDup_fmap_1|apply NoDup_fmap_2, _].
Qed.

Lemma sublist_has_meta (l docs : list Document) :
  l `sublist_of` docs -> Forall has_meta docs -> Forall has_meta l.
Proof.
  intros Hsub. rewrite !Forall_forall. intros H d Hd. apply H.
  by eapply elem_of_sublist.
Qed.

Lemma sublist_ids (l docs : list Document) :
  l `sublist_of` docs ->
  NoDup (map metadata_id docs) -> NoDup (map metadata_id l).
Proof.
  intros Hsub Hnd.
  apply (sublist_NoDup _ (metadata_id <$> docs)); [exact Hnd|].
  change (map metadata_id l) with (metadata_id <$> l). by apply fmap_sublist.
Qed.

(** X9. On every list of documents with their own metadata objects, a
    hash and a path, whether a hash comes twice or not, the deduplication
    succeeds, returns the last document of every hash, and leaves a list
    without duplicates untouched and unlogged. *)
Theorem dedup_total (docs : list Document) :
  NoDup (map metadata_id docs) ->
  Forall has_meta docs ->
  exists logs,
    dedup docs = Ok (keep_last docs, logs) /\
    (NoDup (hashes_of docs) -> keep_last docs = docs /\ logs = []) /\
    (logs = [] \/
     logs = [FoundDuplicateHashes;
             Removed (length docs - length (keep_last docs)) (length docs);
             Removed 0 (length docs)]).
Proof.
  intros Hids Hmeta. destruct (decide (NoDup (hashes_of docs))) as [Hnd|Hdup].
  - assert (Hk : keep_last docs = docs)
      by by apply keep_last_distinct, hashes_NoDup.
    exists []. rewrite Hk. split; [by apply dedup_distinct|].
    split; [done|by left].
  - eexists. split; [by apply Dedup.dedup_spec|]. split; [done|]. right.
    pose proof (Dedup.keep_last_dropped_length docs).
    repeat f_equal. lia.
Qed.

Lemma dedup_total_witness :
  exists logs, dedup [Sample.b1; Sample.a2] = Ok ([Sample.b1; Sample.a2], logs).
Proof.
  destruct (dedup_total [Sample.b1; Sample.a2]) as (logs & Hrun & _).
  - apply (bool_decide_unpack _). vm_compute. exact I.
  - repeat constructor; eexists; vm_compute; reflexivity.
  - exists logs. exact Hrun.
Defined.

(** X10. Run on its own result, the deduplication changes nothing and logs
    nothing. *)
Theorem dedup_idempotent (docs : list Document) :
  NoDup (map metadata_id docs) ->
  Forall has_meta docs ->
  exists out logs,
    dedup docs = Ok (out, logs) /\ dedup out = Ok (out, []).
Proof.
  intros Hids Hmeta. destruct (dedup_total docs Hids Hmeta) as (logs & Hrun & _).
  exists (keep_last docs), logs. split; [exact Hrun|].
  pose proof (Dedup.keep_last_sublist docs) as Hsub.
  apply dedup_distinct.
  - by eapply sublist_ids.
  - by eapply sublist_has_meta.
  - apply hashes_NoDup; [by eapply sublist_has_meta|].
    apply Dedup.keep_last_NoDup.
Qed.

Lemma dedup_idempotent_witness :
  exists out logs,
    dedup Sample.three_docs = Ok (out, logs) /\ dedup out = Ok (out, []).
Proof.
  apply (dedup_idempotent Sample.three_docs).
  - apply (bool_decide_unpack _). vm_compute. exact I.
  - repeat constructor; eexists; vm_compute; reflexivity.
Defined.

Lemma mapR_meta_error (k : string) (docs : list Document) (e : exn) :
  mapR (fun d => meta d k) docs = Raise e -> e = KeyError.
Proof.
  induction docs as [|d docs IH]; [done|]. cbn [mapR]. unfold meta at 1.
  destruct (metadata d !! lit k); [|by intros [= <-]].
  destruct (mapR _ docs); [done|]. intros [= <-]. by apply IH.
Qed.

Lemma dedup_loop_error (docs : list Document) :
  forall (i : nat) (st : state) (e : exn),
    dedup_loop i docs st = Raise e -> e = KeyError \/ e = AssertionError.
Proof.
  induction docs as [|d docs IH]; intros i st e; [done|].
  cbn [dedup_loop].
  destruct (dedup_step st i d) as [st'|e'] eqn:Hstep; cbn [bind].
  - apply IH.
  - intros [= <-]. unfold dedup_step, meta, counter_at in Hstep.
    repeat (match type of Hstep with
            | context [match ?x with _ => _ end] => destruct x
            end; cbn [bind] in Hstep; try discriminate);
      injection Hstep as <-; auto.
Qed.

(** X11. Whatever the documents, the deduplication fails only with an
    [AssertionError] or a [KeyError]: the exception of the check for
    amputated documents is never raised. *)
Theorem dedup_errors (docs : list Document) (e : exn) :
  dedup docs = Raise e -> e = AssertionError \/ e = KeyError.
Proof.
  unfold dedup. destruct (length docs <=? 1); [done|].
  destruct (negb _); [intros [= <-]; by left|].
  destruct (mapR (fun d => meta d "hash") docs) as [hashes|e1] eqn:Hh;
    cbn [bind]; [|intros [= <-]; right; by eapply mapR_meta_error].
  destruct (length hashes =? _); [done|].
  destruct (dedup_loop 0 docs _) as [st|e2] eqn:Hl; cbn [bind].
  2:{ intros [= <-]. apply dedup_loop_error in Hl. tauto. }
  destruct (mapR (fun d => meta d "path") _) as [paths|e3] eqn:Hp;
    cbn [bind]; [|intros [= <-]; right; by eapply mapR_meta_error].
  rewrite bool_decide_eq_true_2; [done|].
  rewrite list_to_set_nil. apply (left_absorb_L _ _).
Qed.

Lemma dedup_errors_witness :
  AssertionError = AssertionError \/ AssertionError = KeyError.
Proof.
  apply (dedup_errors [Sample.a1; Sample.p1]). vm_compute. reflexivity.
Defined.

(** X12. Two documents that share their metadata object stop the run with an
    [AssertionError], before any hash is read; a single document, or none,
    is returned unchecked. *)
Theorem dedup_shared_metadata (docs : list Document) :
  (1 < length docs -> ~ NoDup (map metadata_id docs) ->
     dedup docs = Raise AssertionError) /\
  (length docs <= 1 -> dedup docs = Ok (docs, [])) /\
  (1 < length docs -> NoDup (map metadata_id docs) ->
     Exists (fun d => hash_of d = None) docs ->
     dedup docs = Raise KeyError).
Proof.
  unfold dedup. split; [|split].
  - intros Hlong Hdup. rewrite (proj2 (Nat.leb_gt _ _) Hlong).
    replace (_ =? _) with false; [done|].
    symmetry. apply Nat.eqb_neq. intros Heq. apply Hdup.
    by apply Dedup.remove_dups_length.
  - intros Hshort. by rewrite (proj2 (Nat.leb_le _ _) Hshort).
  - intros Hlong Hids Hex. rewrite (proj2 (Nat.leb_gt _ _) Hlong).
    rewrite (proj2 (Dedup.remove_dups_length (map metadata_id docs)) Hids).
    rewrite Nat.eqb_refl. cbn [negb].
    replace (mapR (fun d => meta d "hash") docs) with (@Raise (list str) KeyError);
      [done|].
    symmetry. clear Hlong Hids.
    induction Hex as [d docs Hd|d docs _ IH]; cbn [mapR]; unfold meta at 1.
    + unfold hash_of in Hd. by rewrite Hd.
    + destruct (metadata d !! lit "hash"); [|done]. by rewrite IH.
Qed.

End DedupEdges.

(** ** More on the clean-up before a recursive summary *)

Module CleanupEdges.
Import Summary Asserted.

(** X13. Every line of a cleaned text is free of the three markers and has no
    white space at its end. *)
Theorem clean_summary_lines (x : str) :
  Forall (fun l => is_separator l = false /\
                   re_search_chunk l = false /\
                   is_recursion_block l = false /\
                   rstrip l = l)
    (split_nl (clean_summary x)).
Proof.
  unfold clean_summary. pose proof (Cleanup.clean_lines_of x) as Hclean.
  assert (Hlines : Forall clean_line
            (split_nl (join_nl (kept_lines (blank_markers (split_nl x)))))).
  { destruct (kept_lines (blank_markers (split_nl x))) as [|l ls] eqn:E.
    - repeat constructor.
    - rewrite Cleanup.split_join; [done| |done].
      eapply Forall_impl; [exact Hclean|]. by intros ? [? _]. }
  eapply Forall_impl; [exact Hlines|]. intros l (_ & Hm & Hr).
  unfold is_marker in Hm. apply orb_false_iff in Hm as [Hm ?].
  apply orb_false_iff in Hm as [? ?]. done.
Qed.

(** X14. A text whose lines are clean and not empty is left as it is. *)
Theorem clean_summary_fixed (ls : list str) :
  Forall clean_line ls ->
  Forall (fun l => l <> []) ls ->
  clean_summary (join_nl ls) = join_nl ls.
Proof.
  intros Hclean Hne. rewrite Cleanup.clean_summary_join by done.
  by rewrite Cleanup.filter_nonempty_id.
Qed.

Lemma clean_summary_fixed_witness :
  clean_summary (join_nl (map lit ["- a"; "  - b"]%string))
  = join_nl (map lit ["- a"; "  - b"]%string).
Proof.
  apply (clean_summary_fixed (map lit ["- a"; "  - b"]%string)).
  - repeat constructor; try discriminate; vm_compute; reflexivity.
  - repeat constructor; discriminate.
Defined.

Lemma kept_lines_all_None (ls : list str) :
  kept_lines (map (fun _ => None) ls) = [].
Proof. unfold kept_lines. induction ls as [|l ls IH]; [done|]. exact IH. Qed.

Lemma recursion_block_not_separator (m : str) :
  is_recursion_block m = true -> is_separator m = false.
Proof.
  unfold is_recursion_block, is_separator, str_eqb, startswith.
  intros Hm. apply bool_decide_eq_false_2. intros Heq.
  rewrite Heq in Hm. vm_compute in Hm. discriminate Hm.
Qed.

Lemma kept_lines_truncated (ls1 ls2 : list str) (m : str) :
  is_recursion_block m = true ->
  re_search_chunk m = false ->
  kept_lines (blank_markers (ls1 ++ m :: ls2)) =
    kept_lines (blank_markers ls1).
Proof.
  intros Hm Hc. pose proof (recursion_block_not_separator m Hm) as Hs.
  induction ls1 as [|l ls1 IH].
  - cbn [app blank_markers]. rewrite Hs, Hc, Hm.
    unfold kept_lines. cbn [omap list_omap]. apply kept_lines_all_None.
  - cbn [app blank_markers].
    destruct (is_separator l); [exact IH|].
    destruct (re_search_chunk l); [exact IH|].
    destruct (is_recursion_block l).
    + unfold kept_lines. cbn [omap list_omap].
      fold (kept_lines (map (fun _ => None) (ls1 ++ m :: ls2))).
      fold (kept_lines (map (fun _ : str => @None str) ls1)).
      by rewrite !kept_lines_all_None.
    + unfold kept_lines in *. cbn [omap list_omap]. by rewrite IH.
Qed.

(** X15. A line that opens a recursion block, and is not itself a chunk marker,
    ends the text: what stands from that line on has no effect on the
    result. *)
Theorem clean_summary_truncates (ls1 ls2 : list str) (m : str) :
  Forall nl_free (ls1 ++ m :: ls2) ->
  is_recursion_block m = true ->
  re_search_chunk m = false ->
  clean_summary (join_nl (ls1 ++ m :: ls2)) = clean_summary (join_nl ls1).
Proof.
  intros Hfree Hm Hc. unfold clean_summary.
  rewrite Cleanup.split_join by (done || by destruct ls1).
  rewrite kept_lines_truncated by done.
  destruct ls1 as [|l ls1]; [reflexivity|].
  rewrite Cleanup.split_join; [done| |done].
  apply Forall_app in Hfree as [? _]. done.
Qed.

Lemma clean_summary_truncates_witness :
  clean_summary
    (join_nl (map lit ["- a"%string] ++ lit "- BEFORE RECURSION #1"
                :: map lit ["- old"; "- Chunk 1/2"]%string))
  = clean_summary (join_nl (map lit ["- a"%string])).
Proof.
  apply (clean_summary_truncates (map lit ["- a"%string])).
  - repeat constructor; discriminate.
  - reflexivity.
  - reflexivity.
Defined.

(** *** The assertions *)

Lemma startswith_app_nl (n s t : str) :
  n <> [] -> nl_free n ->
  startswith n (s ++ newline :: t) = startswith n s.
Proof.
  unfold startswith. intros Hne Hfree. revert s.
  induction Hfree as [|c n Hc _ IH]; [done|]. intros s.
  destruct s as [|b s].
  - cbn [app strip_prefix]. apply Ascii.eqb_neq in Hc. by rewrite Hc.
  - cbn [app strip_prefix]. destruct (Ascii.eqb c b); [|done].
    destruct n as [|c' n]; [by destruct s|]. by apply IH.
Qed.

Lemma contains_app_nl (n l t : str) :
  n <> [] -> nl_free n ->
  contains n (l ++ newline :: t) = contains n l || contains n t.
Proof.
  intros Hne Hfree. induction l as [|c l IH].
  - cbn [app]. change (contains n (newline :: t))
      with (startswith n (newline :: t) || contains n t).
    change (newline :: t) with ([] ++ newline :: t) at 1.
    rewrite (startswith_app_nl n [] t Hne Hfree).
    change (contains n []) with (startswith n [] || false).
    by rewrite orb_false_r.
  - change (contains n ((c :: l) ++ newline :: t))
      with (startswith n ((c :: l) ++ newline :: t)
            || contains n (l ++ newline :: t)).
    change (contains n (c :: l)) with (startswith n (c :: l) || contains n l).
    rewrite startswith_app_nl, IH by done. by rewrite orb_assoc.
Qed.

(** A text without a line break in it is found in a text exactly when it
    is found in one of its lines. *)
Lemma contains_join (n : str) (ls : list str) :
  n <> [] -> nl_free n ->
  contains n (join_nl ls) = existsb (contains n) ls.
Proof.
  intros Hne Hfree. induction ls as [|l ls IH].
  - destruct n; [done|]. reflexivity.
  - destruct ls as [|l' ls].
    + cbn [join_nl existsb]. by rewrite orb_false_r.
    + change (join_nl (l :: l' :: ls)) with (l ++ newline :: join_nl (l' :: ls)).
      rewrite contains_app_nl, IH by done. reflexivity.
Qed.

(** X16. The assertions pass exactly when no line of the cleaned text holds
    [- ---], [- Chunk ] or [- BEFORE RECURSION # ] anywhere in it; otherwise
    the clean-up ends with an [AssertionError].  A line that only mentions
    such a text, without being a marker, is enough for that. *)
Theorem clean_summary_checked_spec (x : str) :
  (clean_summary_checked x = Ok (clean_summary x) <->
     Forall (fun l => Forall (fun n => contains n l = false) needles)
       (split_nl (clean_summary x))) /\
  (clean_summary_checked x = Ok (clean_summary x) \/
   clean_summary_checked x = Raise AssertionError) /\
  clean_summary_checked (lit "- Chunk sizes vary") = Raise AssertionError /\
  clean_summary_checked (lit "- ----") = Raise AssertionError.
Proof.
  split; [|split; [|split; vm_compute; reflexivity]].
  - unfold clean_summary_checked, clean_summary.
    set (ls := kept_lines (blank_markers (split_nl x))).
    assert (Hsplit : forall n, n ∈ needles ->
              contains n (join_nl ls) =
              existsb (contains n) (split_nl (join_nl ls))).
    { intros n Hn. pose proof (Cleanup.clean_lines_of x) as Hclean.
      fold ls in Hclean.
      assert (Hn' : n <> [] /\ nl_free n).
      { unfold needles in Hn. rewrite !elem_of_cons in Hn.
        destruct Hn as [->|[->|[->|Hn]]]; [| | |by apply elem_of_nil in Hn];
          (split; [discriminate|repeat constructor; discriminate]). }
      destruct Hn' as [Hne Hfree]. destruct ls as [|l ls'] eqn:E.
      - destruct n; [done|]. reflexivity.
      - rewrite Cleanup.split_join; [by apply contains_join| |done].
        eapply Forall_impl; [exact Hclean|]. by intros ? [? _]. }
    rewrite !Hsplit by (unfold needles; set_solver).
    generalize (split_nl (join_nl ls)). intros lines. split.
    + intros Hrun. apply Forall_forall. intros l Hl.
      repeat (apply Forall_cons; split); [| | |constructor];
        match goal with
        | |- contains ?n l = false =>
            destruct (existsb (contains n) lines) eqn:E; [by repeat case_match|];
            apply not_true_iff_false; intros Hc;
            apply not_true_iff_false in E; apply E, existsb_exists;
            exists l; split; [by apply list_elem_of_In|done]
        end.
    + intros Hall.
      assert (Hnone : forall n, n ∈ needles ->
                existsb (contains n) lines = false).
      { intros n Hn. apply not_true_iff_false.
        intros (l & Hl & Hc)%existsb_exists.
        rewrite Forall_forall in Hall.
        specialize (Hall l (proj2 (list_elem_of_In _ _) Hl)).
        rewrite Forall_forall in Hall. specialize (Hall n Hn). congruence. }
      by rewrite !Hnone by (unfold needles; set_solver).
  - unfold clean_summary_checked. repeat case_match; auto.
Qed.

(** A line made of a no-break space is white space only: the first pass
    empties it and the second drops it. *)
Lemma clean_summary_no_break_space :
  clean_summary (join_nl [lit "- a"; [no_break_space]; lit "- b"])
  = join_nl [lit "- a"; []; lit "- b"] /\
  clean_summary (join_nl [lit "- a"; []; lit "- b"])
  = join_nl [lit "- a"; lit "- b"].
Proof. split; vm_compute; reflexivity. Qed.

End CleanupEdges.

(** ** From the judge's outputs to the verdict *)

Module Verdict.
Import Query.

Lemma lstrip_nil (s : str) : lstrip s = [] -> forallb isspace s = true.
Proof.
  induction s as [|c s IH]; [done|]. simpl.
  destruct (isspace c); [exact IH|done].
Qed.

Lemma strip_nil_all_space (s : str) :
  strip s = [] -> forallb isspace s = true.
Proof.
  unfold strip. intros Hs%lstrip_nil.
  destruct (Cleanup.rstrip_decomp s) as (ws & Hdec & Hws).
  pose proof (Cleanup.rstrip_all_space _ Hs) as Hr.
  rewrite Cleanup.rstrip_idem in Hr. rewrite Hr in Hdec. simpl in Hdec.
  by subst s.
Qed.

Lemma filter_no_digit (s : str) :
  forallb (fun c => negb (isdigit c)) s = true -> List.filter isdigit s = [].
Proof.
  induction s as [|c s IH]; [done|]. simpl.
  intros [Hc Hs]%andb_true_iff. apply negb_true_iff in Hc. rewrite Hc.
  by apply IH.
Qed.

(** X17. The judge may wrap its digit in other text: an output with a single [0]
    or [1] in it, no other digit and no dash, is read as that digit. *)
Theorem parse_eval_output_wrapped (pre post : str) (d : ascii) :
  d = zero \/ d = one ->
  forallb (fun c => negb (isdigit c)) (pre ++ post) = true ->
  dash ∉ pre ++ post ->
  parse_eval_output (pre ++ d :: post) = Ok [d].
Proof.
  intros Hd Hnodigit Hnodash.
  assert (Hdigit : isdigit d = true) by (by destruct Hd as [->| ->]).
  assert (Hsp : isspace d = false) by (by destruct Hd as [->| ->]).
  assert (Hnd : d <> dash) by (by destruct Hd as [->| ->]).
  rewrite forallb_app in Hnodigit. apply andb_true_iff in Hnodigit as [Hpre Hpost].
  apply ParseEvalOutput.returns_iff. split; [|split].
  - intros Hs%strip_nil_all_space. rewrite forallb_app in Hs.
    apply andb_true_iff in Hs as [_ Hs]. simpl in Hs.
    apply andb_true_iff in Hs as [Hs _].
    by rewrite Hsp in Hs.
  - rewrite elem_of_app, elem_of_cons. rewrite elem_of_app in Hnodash.
    intros [?|[?|?]]; [|done|]; apply Hnodash; auto.
  - unfold digits_of. rewrite List.filter_app. cbn [List.filter].
    rewrite Hdigit.
    rewrite !filter_no_digit by done.
    destruct Hd as [->| ->]; [by left|by right].
Qed.

Lemma parse_eval_output_wrapped_witness :
  parse_eval_output (lit "Answer: " ++ one :: lit ".") = Ok [one].
Proof.
  apply (parse_eval_output_wrapped (lit "Answer: ") (lit ".") one).
  - by right.
  - reflexivity.
  - apply (bool_decide_unpack _). vm_compute. exact I.
Defined.

(** A superscript digit counts as a digit of the output: next to a [1]
    it makes two digits of which neither is a [0], and the output is not
    read. *)
Lemma parse_eval_output_superscript :
  parse_eval_output [one; superscript_two] = Raise PlainException /\
  parse_eval_output [no_break_space; one; no_break_space] = Ok (lit "1").
Proof. split; vm_compute; reflexivity. Qed.

Lemma parse_eval_output_digit (o v : str) :
  parse_eval_output o = Ok v -> v = lit "0" \/ v = lit "1".
Proof.
  intros (_ & _ & [[_ ->]|[_ ->]])%ParseEvalOutput.returns_iff; auto.
Qed.

Lemma mapR_parsed (outputs votes : list str) :
  mapR parse_eval_output outputs = Ok votes ->
  Forall (fun v => v = lit "0" \/ v = lit "1") votes.
Proof.
  revert votes. induction outputs as [|o os IH]; intros votes; cbn [mapR].
  - intros [= <-]. constructor.
  - destruct (parse_eval_output o) as [v|] eqn:Ho; [|done].
    destruct (mapR parse_eval_output os) as [vs|]; [|done].
    intros [= <-]. constructor; [by eapply parse_eval_output_digit|by apply IH].
Qed.

(** X18. The votes that [evaluate_doc_chain] makes of the judge's outputs are
    the strings [0] and [1]: [refilter_docs] finds them all digit strings,
    logs no warning for them, and keeps the document exactly when one of the
    votes is [1]. *)
Theorem parsed_votes_verdict (outputs votes : list str) :
  mapR parse_eval_output outputs = Ok votes ->
  length votes = length outputs /\
  forallb str_isdigit votes = true /\
  warnings [Votes votes] = [] /\
  (keeps (Votes votes) = true <-> lit "1" ∈ votes).
Proof.
  intros Hrun. pose proof (mapR_parsed _ _ Hrun) as Hvotes.
  assert (Hlen : length votes = length outputs).
  { clear Hvotes. revert votes Hrun.
    induction outputs as [|o os IH]; intros votes; cbn [mapR].
    - by intros [= <-].
    - destruct (parse_eval_output o); [|done].
      destruct (mapR parse_eval_output os) as [vs|]; [|done].
      intros [= <-]. simpl. f_equal. by apply IH. }
  assert (Hdigits : forallb str_isdigit votes = true).
  { apply forallb_forall. intros v Hv%list_elem_of_In.
    rewrite Forall_forall in Hvotes. by destruct (Hvotes v Hv) as [->| ->]. }
  assert (Hread : forallb int_accepts votes = true).
  { apply forallb_forall. intros v Hv%list_elem_of_In.
    rewrite Forall_forall in Hvotes. by destruct (Hvotes v Hv) as [->| ->]. }
  split; [exact Hlen|]. split; [exact Hdigits|]. split.
  - cbn [warnings as_list]. by rewrite Hdigits.
  - rewrite RefilterDocs.keeps_digits by done. cbn [as_list].
    rewrite RefilterDocs.sum_votes_nonzero by done.
    rewrite Exists_exists. rewrite Forall_forall in Hvotes. split.
    + intros (n & Hn & Hnz). apply list_elem_of_fmap in Hn as (v & -> & Hv).
      by destruct (Hvotes v Hv) as [->| ->].
    + intros Hin. exists 1%Z. split; [|done].
      apply list_elem_of_fmap. by exists (lit "1").
Qed.

Lemma parsed_votes_verdict_witness :
  keeps (Votes [lit "0"; lit "1"; lit "0"]) = true <->
  lit "1" ∈ [lit "0"; lit "1"; lit "0"].
Proof.
  apply (parsed_votes_verdict (map lit [" 0"; "1."; "0 "]%string)).
  vm_compute. reflexivity.
Defined.

End Verdict.

(** ** [examples/NtfySummarizer]: the message of a notification *)

Module NtfyMessage.
Import Ntfy.

Lemma split_first_spec (s a b : str) :
  split_first s = Some (a, b) <-> s = a ++ space :: b /\ (space ∉ a).
Proof.
  revert a. induction s as [|c s IH]; intros a.
  - split; [done|]. intros [Heq _]. by destruct a.
  - cbn [split_first]. destruct (Ascii.eqb c space) eqn:E.
    + apply Ascii.eqb_eq in E. subst c. split.
      * intros [= <- <-]. split; [done|]. apply not_elem_of_nil.
      * intros [Heq Hn]. destruct a as [|x a].
        -- by injection Heq as <-.
        -- injection Heq as <- _. exfalso. apply Hn. by left.
    + apply Ascii.eqb_neq in E.
      destruct (split_first s) as [[a' b']|] eqn:Hs.
      * split.
        -- intros [= <- <-]. destruct (proj1 (IH a') eq_refl) as [-> Hn].
           split; [done|]. by intros [?|?]%elem_of_cons.
        -- intros [Heq Hn]. destruct a as [|x a]; [by injection Heq|].
           injection Heq as <- Heq.
           assert (Hs' : Some (a', b') = Some (a, b)).
           { apply IH. split; [done|]. intros ?. apply Hn. by right. }
           by injection Hs' as -> ->.
      * split; [done|]. intros [Heq Hn]. destruct a as [|x a].
        -- by injection Heq.
        -- injection Heq as <- Heq.
           assert (Hs' : None = Some (a, b)); [|done].
           apply IH. split; [done|]. intros ?. apply Hn. by right.
Qed.

Lemma split_first_none (s : str) : split_first s = None <-> space ∉ s.
Proof.
  induction s as [|c s IH]; [split; [intros _; apply not_elem_of_nil|done]|].
  cbn [split_first]. destruct (Ascii.eqb c space) eqn:E.
  - apply Ascii.eqb_eq in E. subst c. split; [done|]. intros Hn.
    exfalso. apply Hn. by left.
  - apply Ascii.eqb_neq in E. rewrite not_elem_of_cons.
    destruct (split_first s) as [[a b]|].
    + split; [done|]. intros [_ Hn]. by apply IH in Hn.
    + split; [|done]. intros _. split; [congruence|]. by apply IH.
Qed.

(** X19. What a message is read as.  A request is made of a message that, once
    stripped, starts with [http], the file type being [auto], or has a file
    type, a space and a URL that starts with [http]; a message with neither
    [http] in front nor a space in it fails with a [ValueError]; every
    other one, as every message to an empty topic, with an
    [AssertionError]. *)
Theorem parse_message_spec (topic message : str) :
  (forall filetype url,
     parse_message topic message = Request filetype url <->
       strip topic <> [] /\
       startswith (lit "http") url = true /\
       ((startswith (lit "http") (strip message) = true /\
         filetype = lit "auto" /\ url = strip message) \/
        (startswith (lit "http") (strip message) = false /\
         strip message = filetype ++ space :: url /\ (space ∉ filetype)))) /\
  (parse_message topic message = RaisedValueError <->
     startswith (lit "http") (strip message) = false /\
     (space ∉ strip message)).
Proof.
  unfold parse_message. set (m := strip message). set (t := strip topic).
  destruct (startswith (lit "http") m) eqn:Hm.
  - split.
    + intros ft url. destruct t as [|c t'].
      { split; [done|]. by intros [? _]. }
      destruct m as [|c' m'] eqn:Em; [done|]. rewrite Hm. split.
      * intros [= <- <-]. split; [done|]. split; [done|]. by left.
      * intros (_ & _ & [(_ & -> & ->)|([=] & _)]). done.
    + split; [|by intros [? _]]. destruct t, m; by try rewrite Hm.
  - destruct (split_first m) as [[a b]|] eqn:Hs.
    + apply split_first_spec in Hs as [Hmeq Hna]. split.
      * intros ft url.
        assert (Hne : m <> []) by (rewrite Hmeq; by destruct a).
        destruct t as [|c t'].
        { split; [done|]. by intros [? _]. }
        destruct m as [|c' m'] eqn:Em; [done|].
        destruct (startswith (lit "http") b) eqn:Hb.
        -- split.
           ++ intros [= <- <-]. split; [done|]. split; [done|]. by right.
           ++ intros (_ & _ & [([=] & _)|(_ & Heq & Hn)]).
              assert (Hs' : split_first (c' :: m') = Some (ft, url))
                by by apply split_first_spec.
              assert (Hs'' : split_first (c' :: m') = Some (a, b))
                by by apply split_first_spec.
              congruence.
        -- split; [done|]. intros (_ & Hu & [([=] & _)|(_ & Heq & Hn)]).
           assert (Hs' : split_first (c' :: m') = Some (ft, url))
             by by apply split_first_spec.
           assert (Hs'' : split_first (c' :: m') = Some (a, b))
             by by apply split_first_spec.
           congruence.
      * split.
        -- destruct t, m; try done; by destruct (startswith (lit "http") b).
        -- intros [_ Hn]. exfalso. apply Hn. rewrite Hmeq.
           apply elem_of_app. right. by left.
    + apply split_first_none in Hs. split.
      * intros ft url. split; [done|].
        intros (_ & _ & [([=] & _)|(_ & Heq & _)]). exfalso. apply Hs.
        rewrite Heq. apply elem_of_app. right. by left.
      * split; [|done]. by intros _.
Qed.

Lemma rstrip_app_kept (a b : str) :
  rstrip b = b -> b <> [] -> rstrip (a ++ b) = a ++ b.
Proof.
  intros Hb Hne. induction a as [|c a IH]; [done|].
  cbn [app rstrip]. rewrite IH. by destruct (a ++ b) eqn:E; [destruct a|].
Qed.

Lemma startswith_app_sep (sep : ascii) (n s t : str) :
  n <> [] -> (sep ∉ n) ->
  startswith n (s ++ sep :: t) = startswith n s.
Proof.
  unfold startswith. intros Hne Hfree. revert s.
  induction n as [|c n IH]; [done|]. intros s.
  apply not_elem_of_cons in Hfree as [Hc Hfree].
  destruct s as [|b s].
  - cbn [app strip_prefix].
    assert (E : Ascii.eqb c sep = false) by (apply Ascii.eqb_neq; congruence).
    by rewrite E.
  - cbn [app strip_prefix]. destruct (Ascii.eqb c b); [|done].
    destruct n as [|c' n]; [by destruct s|]. by apply IH.
Qed.

(** X20. A file type without white space that does not start with [http],
    a space and a URL that starts with [http] and does not end in white
    space are read back as that file type and that URL. *)
Theorem parse_message_round_trip (topic filetype url : str) :
  strip topic <> [] ->
  filetype <> [] ->
  forallb (fun c => negb (isspace c)) filetype = true ->
  startswith (lit "http") filetype = false ->
  startswith (lit "http") url = true ->
  rstrip url = url ->
  parse_message topic (filetype ++ space :: url) = Request filetype url.
Proof.
  intros Ht Hne Hft Hnh Hu Hr.
  assert (Hurl : url <> []) by (by destruct url).
  assert (Hsp : space ∉ filetype).
  { intros Hin%list_elem_of_In. rewrite forallb_forall in Hft.
    by specialize (Hft _ Hin). }
  assert (Hstrip : strip (filetype ++ space :: url) = filetype ++ space :: url).
  { unfold strip. rewrite (rstrip_app_kept filetype (space :: url)).
    - destruct filetype as [|c ft]; [done|]. cbn [app lstrip].
      simpl in Hft. apply andb_true_iff in Hft as [Hc _].
      apply negb_true_iff in Hc. by rewrite Hc.
    - change (space :: url) with ([space] ++ url).
      by rewrite (rstrip_app_kept [space] url).
    - done. }
  apply parse_message_spec. split; [done|]. split; [done|]. right.
  rewrite Hstrip. split; [|done].
  rewrite startswith_app_sep; [done|done|].
  apply (bool_decide_unpack _). vm_compute. exact I.
Qed.

Lemma parse_message_round_trip_witness :
  parse_message (lit "news") (lit "pdf" ++ space :: lit "https://a.org/x.pdf")
  = Request (lit "pdf") (lit "https://a.org/x.pdf").
Proof.
  apply (parse_message_round_trip (lit "news") (lit "pdf")
           (lit "https://a.org/x.pdf"));
    try discriminate; reflexivity.
Defined.

(** A no-break space is stripped like a space, but does not part the file
    type from the URL. *)
Lemma parse_message_no_break_space :
  parse_message [no_break_space] (lit "pdf https://a.org/x")
  = RaisedAssertionError /\
  parse_message (lit "news") (no_break_space :: lit "https://a.org/x")
  = Request (lit "auto") (lit "https://a.org/x") /\
  parse_message (lit "news") (lit "pdf" ++ no_break_space :: lit "https://a.org/x")
  = RaisedValueError.
Proof. repeat split; vm_compute; reflexivity. Qed.

End NtfyMessage.

(** ** [DocToolsLLM.query_task]: the retrievers of a setting *)

Module RetrieverSelection.
Import Retrievers.

Lemma split_on_nonempty (sep : ascii) (s : str) : split_on sep s <> [].
Proof.
  destruct s as [|c s]; [done|]. cbn [split_on].
  destruct (Ascii.eqb c sep); [done|]. by destruct (split_on sep s).
Qed.

(** Joining the parts of a text gives the text back. *)
Lemma join_split_on (sep : ascii) (s : str) :
  join_on sep (split_on sep s) = s.
Proof.
  induction s as [|c s IH]; [done|]. cbn [split_on].
  destruct (Ascii.eqb c sep) eqn:E.
  - apply Ascii.eqb_eq in E. subst c.
    pose proof (split_on_nonempty sep s) as Hne.
    destruct (split_on sep s) as [|l ls]; [done|].
    change (join_on sep ([] :: l :: ls)) with ([] ++ sep :: join_on sep (l :: ls)).
    by rewrite IH.
  - pose proof (split_on_nonempty sep s) as Hne.
    destruct (split_on sep s) as [|l ls]; [done|].
    rewrite <- IH. by destruct ls.
Qed.

Lemma contains_app_sep (sep : ascii) (n l t : str) :
  n <> [] -> (sep ∉ n) ->
  contains n (l ++ sep :: t) = contains n l || contains n t.
Proof.
  intros Hne Hfree. induction l as [|c l IH].
  - cbn [app]. change (contains n (sep :: t))
      with (startswith n (sep :: t) || contains n t).
    change (sep :: t) with ([] ++ sep :: t) at 1.
    rewrite (NtfyMessage.startswith_app_sep sep n [] t Hne Hfree).
    change (contains n []) with (startswith n [] || false).
    by rewrite orb_false_r.
  - change (contains n ((c :: l) ++ sep :: t))
      with (startswith n ((c :: l) ++ sep :: t)
            || contains n (l ++ sep :: t)).
    change (contains n (c :: l)) with (startswith n (c :: l) || contains n l).
    rewrite NtfyMessage.startswith_app_sep, IH by done. by rewrite orb_assoc.
Qed.

Lemma contains_join_on (sep : ascii) (n : str) (ls : list str) :
  n <> [] -> (sep ∉ n) ->
  contains n (join_on sep ls) = existsb (contains n) ls.
Proof.
  intros Hne Hfree. induction ls as [|l ls IH].
  - destruct n; [done|]. reflexivity.
  - destruct ls as [|l' ls].
    + cbn [join_on existsb]. by rewrite orb_false_r.
    + change (join_on sep (l :: l' :: ls))
        with (l ++ sep :: join_on sep (l' :: ls)).
      rewrite contains_app_sep, IH by done. reflexivity.
Qed.

Lemma lower_join_on (sep : ascii) (ls : list str) :
  lower (join_on sep ls) = join_on (lower_char sep) (map lower ls).
Proof.
  induction ls as [|l ls IH]; [done|]. destruct ls as [|l' ls]; [done|].
  change (join_on sep (l :: l' :: ls))
    with (l ++ sep :: join_on sep (l' :: ls)).
  unfold lower at 1. rewrite map_app. cbn [map]. fold (lower l).
  fold (lower (join_on sep (l' :: ls))). by rewrite IH.
Qed.

Lemma allowed_cases (p : str) :
  p ∈ allowed -> exists r, p = name r.
Proof.
  unfold allowed. cbn [map]. rewrite !elem_of_cons, elem_of_nil.
  intros [->|[->|[->|[->|[->|[]]]]]];
    [by exists Default|by exists Hyde|by exists Knn|by exists Svm
    |by exists Parent].
Qed.

Lemma name_allowed (r : retriever) : name r ∈ allowed.
Proof.
  unfold allowed. cbn [map]. rewrite !elem_of_cons.
  destruct r; cbn [name]; tauto.
Qed.

Lemma name_inj (r r' : retriever) : name r = name r' -> r = r'.
Proof. by destruct r, r'. Qed.

(** An allowed name holds the name of a retriever only when it is that
    name, and holds no upper-case letter. *)
Lemma contains_name (r r' : retriever) :
  contains (name r) (name r') = bool_decide (name r = name r').
Proof.
  case_bool_decide as H.
  - apply name_inj in H. subst r'. by destruct r.
  - destruct r, r'; try reflexivity; by exfalso.
Qed.

Lemma lower_name (r : retriever) : lower (name r) = name r.
Proof. by destruct r. Qed.

Lemma name_sep_free (r : retriever) : underscore ∉ name r.
Proof.
  destruct r; cbn [name]; apply (bool_decide_unpack _); vm_compute; exact I.
Qed.

Lemma name_nonempty (r : retriever) : name r <> [].
Proof. by destruct r. Qed.

(** Under the first assertion, a name is found in the lower-cased setting
    exactly when it is one of the parts of the setting. *)
Lemma contains_setting (setting : str) (r : retriever) :
  Forall (fun p => p ∈ allowed) (split_on underscore setting) ->
  contains (name r) (lower setting)
  = bool_decide (name r ∈ split_on underscore setting).
Proof.
  intros Hall. rewrite <- (join_split_on underscore setting) at 1.
  rewrite lower_join_on. change (lower_char underscore) with underscore.
  rewrite contains_join_on by (apply name_nonempty || apply name_sep_free).
  induction Hall as [|p ps Hp _ IH]; [done|].
  cbn [map existsb]. rewrite IH.
  apply allowed_cases in Hp as [r' ->]. rewrite lower_name, contains_name.
  rewrite <- bool_decide_or. apply bool_decide_ext.
  rewrite elem_of_cons. tauto.
Qed.

Lemma forallb_allowed (parts : list str) :
  forallb (fun retriev => bool_decide (retriev ∈ allowed)) parts = true
  <-> Forall (fun p => p ∈ allowed) parts.
Proof.
  rewrite forallb_forall, Forall_forall. split.
  - intros H p Hp. apply list_elem_of_In in Hp.
    apply (bool_decide_unpack _). rewrite (H p Hp). exact I.
  - intros H p Hp. apply list_elem_of_In in Hp.
    apply bool_decide_eq_true_2, H, Hp.
Qed.

Lemma appended (setting : str) :
  append_if setting Default
    (append_if setting Parent
       (append_if setting Svm
          (append_if setting Knn (append_if setting Hyde []))))
  = List.filter (fun r => contains (name r) (lower setting)) all_retrievers.
Proof.
  unfold append_if, all_retrievers. cbn [List.filter].
  by destruct (contains (name Hyde) _), (contains (name Knn) _),
    (contains (name Svm) _), (contains (name Parent) _),
    (contains (name Default) _).
Qed.

Lemma selected_of_parts (setting : str) :
  Forall (fun p => p ∈ allowed) (split_on underscore setting) ->
  List.filter (fun r => contains (name r) (lower setting)) all_retrievers
  = List.filter
      (fun r => bool_decide (name r ∈ split_on underscore setting))
      all_retrievers.
Proof.
  intros Hall. apply List.filter_ext. intros r. by apply contains_setting.
Qed.

Lemma selected_nonempty (setting : str) :
  Forall (fun p => p ∈ allowed) (split_on underscore setting) ->
  List.filter
    (fun r => bool_decide (name r ∈ split_on underscore setting))
    all_retrievers <> [].
Proof.
  intros Hall. pose proof (split_on_nonempty underscore setting) as Hne.
  destruct (split_on underscore setting) as [|p ps] eqn:E; [done|].
  apply Forall_cons in Hall as [Hp _].
  apply allowed_cases in Hp as [r ->].
  assert (Hin : In r (List.filter
            (fun r0 => bool_decide (name r0 ∈ name r :: ps)) all_retrievers)).
  { apply filter_In. split.
    - unfold all_retrievers. destruct r; cbn [In]; tauto.
    - apply bool_decide_eq_true. by left. }
  intros Hnil. by rewrite Hnil in Hin.
Qed.

Lemma select_retrievers_ok (setting : str) :
  Forall (fun p => p ∈ allowed) (split_on underscore setting) ->
  select_retrievers setting
  = Ok (List.filter
          (fun r => bool_decide (name r ∈ split_on underscore setting))
          all_retrievers).
Proof.
  intros Hall. pose proof (selected_nonempty setting Hall) as Hne.
  unfold select_retrievers.
  rewrite (proj2 (forallb_allowed _) Hall). cbn [negb].
  rewrite appended, (selected_of_parts setting Hall).
  by destruct (List.filter _ all_retrievers).
Qed.

(** X21. A setting that passes the first assertion selects the retrievers named
    by its parts, each once and in the order hyde, knn, svm, parent,
    default, whatever the order and the repetitions in the setting; and
    it selects at least one. *)
Theorem select_retrievers_selected (setting : str) :
  Forall (fun p => p ∈ allowed) (split_on underscore setting) ->
  exists rs,
    select_retrievers setting = Ok rs /\
    rs <> [] /\
    rs = List.filter
           (fun r => bool_decide (name r ∈ split_on underscore setting))
           [Hyde; Knn; Svm; Parent; Default].
Proof.
  intros Hall. eexists. split; [by apply select_retrievers_ok|].
  split; [by apply selected_nonempty|done].
Qed.

Lemma select_retrievers_selected_witness :
  exists rs,
    select_retrievers (lit "svm_hyde_svm") = Ok rs /\
    rs <> [] /\
    rs = List.filter
           (fun r => bool_decide
                       (name r ∈ split_on underscore (lit "svm_hyde_svm")))
           [Hyde; Knn; Svm; Parent; Default].
Proof.
  apply (select_retrievers_selected (lit "svm_hyde_svm")).
  apply forallb_allowed. vm_compute. reflexivity.
Defined.

(** X22. The selection fails exactly when a part of the setting, split at the
    underscores as it is written, is not one of the five allowed names,
    and then with an [AssertionError]: the assertion that a retriever was
    selected never fails. *)
Theorem select_retrievers_raises (setting : str) :
  (select_retrievers setting = Raise AssertionError <->
   Exists (fun p => p ∉ allowed) (split_on underscore setting)) /\
  (forall e, select_retrievers setting = Raise e -> e = AssertionError).
Proof.
  destruct (decide (Forall (fun p => p ∈ allowed)
                      (split_on underscore setting))) as [Hall|Hnot].
  - rewrite (select_retrievers_ok setting Hall). split; [|done].
    split; [done|]. intros Hex. apply Exists_exists in Hex as (p & Hp & Hn).
    rewrite Forall_forall in Hall. exfalso. by apply Hn, Hall.
  - assert (E : forallb (fun retriev => bool_decide (retriev ∈ allowed))
                  (split_on underscore setting) = false).
    { apply not_true_is_false. intros H. by apply Hnot, forallb_allowed. }
    unfold select_retrievers. rewrite E. cbn [negb]. split.
    + split; [|done]. intros _.
      apply (not_Forall_Exists _) in Hnot.
      apply Exists_exists in Hnot as (p & Hp & Hn).
      apply Exists_exists. by exists p.
    + by intros e [= <-].
Qed.

End RetrieverSelection.

(** ** [summarize_documents]: the recursive summaries *)

Module RecursiveSummaries.
Import Summary Recursive.

Lemma checked_ok (x y : str) :
  clean_summary_checked x = Ok y ->
  y = clean_summary x /\ clean_summary_checked x = Ok (clean_summary x).
Proof.
  unfold clean_summary_checked.
  destruct (contains (lit "- ---") _); [done|].
  destruct (contains (lit "- Chunk ") _); [done|].
  destruct (contains (lit "- BEFORE RECURSION # ") _); [done|].
  by intros [= <-].
Qed.

Lemma checked_raise (x : str) (e : exn) :
  clean_summary_checked x = Raise e -> e = AssertionError.
Proof.
  unfold clean_summary_checked.
  destruct (contains (lit "- ---") _); [by intros [= <-]|].
  destruct (contains (lit "- Chunk ") _); [by intros [= <-]|].
  destruct (contains (lit "- BEFORE RECURSION # ") _); [by intros [= <-]|].
  done.
Qed.

Lemma checked_needles (x : str) :
  clean_summary_checked x = Ok (clean_summary x) ->
  Forall (fun needle => contains needle (clean_summary x) = false)
    Asserted.needles.
Proof.
  unfold clean_summary_checked.
  destruct (contains (lit "- ---") _) eqn:E1; [done|].
  destruct (contains (lit "- Chunk ") _) eqn:E2; [done|].
  destruct (contains (lit "- BEFORE RECURSION # ") _) eqn:E3; [done|].
  intros _. unfold Asserted.needles. by repeat constructor.
Qed.

Lemma stored_insert_ne (rs : gmap nat str) (i j : nat) (t : str) :
  j <> i -> stored (<[i := t]> rs) j = stored rs j.
Proof. intros Hne. unfold stored. by rewrite lookup_insert_ne. Qed.

Lemma stored_insert_eq (rs : gmap nat str) (i : nat) (t : str) :
  stored (<[i := t]> rs) i = t.
Proof. unfold stored. by rewrite lookup_insert_eq. Qed.

Lemma max_key_spec (rs : gmap nat str) :
  (forall j, is_Some (rs !! j) -> j <= max_key rs) /\
  ((rs = ∅ /\ max_key rs = 0) \/ is_Some (rs !! max_key rs)).
Proof.
  unfold max_key.
  apply (map_fold_weak_ind
           (fun b (m : gmap nat str) =>
              (forall j, is_Some (m !! j) -> j <= b) /\
              ((m = ∅ /\ b = 0) \/ is_Some (m !! b)))).
  - split; [|by left]. intros j [x Hx]. by rewrite lookup_empty in Hx.
  - intros i x m r Hi [Hle Hmax]. split.
    + intros j. destruct (decide (j = i)) as [->|Hne]; [lia|].
      rewrite lookup_insert_ne by done. intros Hj%Hle. lia.
    + right. destruct (decide (r <= i)) as [Hri|Hri].
      * rewrite Nat.max_l by done. rewrite lookup_insert_eq. by eexists.
      * rewrite Nat.max_r by lia. rewrite lookup_insert_ne by lia.
        destruct Hmax as [[_ ->]|Hr]; [lia|done].
Qed.

Lemma max_key_range (rs : gmap nat str) (k : nat) :
  (forall j, is_Some (rs !! j) <-> j <= k) -> max_key rs = k.
Proof.
  intros Hkeys. destruct (max_key_spec rs) as [Hle [[-> _]|Hmax]].
  - destruct (proj2 (Hkeys 0)) as [x Hx]; [lia|].
    by rewrite lookup_empty in Hx.
  - apply Hkeys in Hmax. pose proof (Hle k (proj2 (Hkeys k) (le_n k))). lia.
Qed.

Lemma size_two (rs : gmap nat str) :
  is_Some (rs !! 0) -> is_Some (rs !! 1) -> 1 < size rs.
Proof.
  intros [a Ha] [b Hb].
  rewrite <- (insert_delete_id rs 0 a Ha).
  rewrite map_size_insert_None by apply lookup_delete_eq.
  assert (Hne : size (delete 0 rs) <> 0).
  { intros Hz%map_size_empty_iff.
    assert (Hl : delete 0 rs !! 1 = Some b)
      by by rewrite lookup_delete_ne.
    by rewrite Hz, lookup_empty in Hl. }
  lia.
Qed.

Section Passes.

Context {docs cost : Type}.
Variable cost_add : cost -> cost -> cost.
Variable transform_documents : str -> docs.
Variable check_docs_tkn_length : docs -> bool.
Variable do_summarize : docs -> nat -> str * Z * cost.

Local Abbreviation run :=
  (summarize_recursively cost_add transform_documents check_docs_tkn_length
     do_summarize).
Local Abbreviation loop :=
  (passes cost_add transform_documents check_docs_tkn_length do_summarize).
Local Abbreviation one_pass :=
  (pass cost_add transform_documents check_docs_tkn_length do_summarize).
Local Abbreviation call := (Recursive.call transform_documents do_summarize).
Local Abbreviation fits x :=
  (check_docs_tkn_length (transform_documents (clean_summary x))).
Local Abbreviation inv :=
  (invariant cost_add transform_documents check_docs_tkn_length do_summarize).

Lemma call_insert_ne (rs : gmap nat str) (i j : nat) (t : str) :
  j - 1 <> i -> call (<[i := t]> rs) j = call rs j.
Proof. intros Hne. unfold Recursive.call. by rewrite stored_insert_ne. Qed.

(** A pass that ends in [break] leaves everything but the text as it was;
    the text is the cleaned one, which did not fit. *)
Lemma pass_break (n_recur : nat) (st st' : state cost) :
  one_pass n_recur st = Ok (inl st') ->
  clean_summary_checked (summary_text st)
    = Ok (clean_summary (summary_text st)) /\
  fits (summary_text st) = false /\
  st' = State (clean_summary (summary_text st)) (doc_total_tokens st)
          (doc_total_cost st) (n_recursion_done st) (recursive_summaries st).
Proof.
  unfold pass.
  destruct (clean_summary_checked (summary_text st)) as [y|e] eqn:Hc; [|done].
  apply checked_ok in Hc as [-> Hc]. cbn [bind].
  destruct (fits (summary_text st)) eqn:Hf; cbn [negb].
  - destruct (do_summarize _ n_recur) as [[t tk] c].
    by destruct (clean_summary_checked t).
  - by intros [= <-].
Qed.

(** A pass that runs to its end stores the summary of the cleaned text. *)
Lemma pass_done (n_recur : nat) (st st' : state cost) :
  one_pass n_recur st = Ok (inr st') ->
  let r := do_summarize
             (transform_documents (clean_summary (summary_text st))) n_recur in
  clean_summary_checked (summary_text st)
    = Ok (clean_summary (summary_text st)) /\
  fits (summary_text st) = true /\
  clean_summary_checked r.1.1 = Ok (clean_summary r.1.1) /\
  st' = State r.1.1 (doc_total_tokens st + r.1.2)%Z
          (cost_add (doc_total_cost st) r.2) (n_recursion_done st + 1)
          (<[n_recursion_done st + 1 := r.1.1]> (recursive_summaries st)).
Proof.
  unfold pass.
  destruct (clean_summary_checked (summary_text st)) as [y|e] eqn:Hc; [|done].
  apply checked_ok in Hc as [-> Hc]. cbn [bind].
  destruct (fits (summary_text st)) eqn:Hf; cbn [negb]; [|done].
  destruct (do_summarize _ n_recur) as [[t tk] c]. cbn [fst snd].
  destruct (clean_summary_checked t) as [y|e] eqn:Ht; [|done].
  apply checked_ok in Ht as [-> Ht]. cbn [bind]. by intros [= <-].
Qed.

Lemma pass_raise (n_recur : nat) (st : state cost) (e : exn) :
  one_pass n_recur st = Raise e -> e = AssertionError.
Proof.
  unfold pass.
  destruct (clean_summary_checked (summary_text st)) as [y|e'] eqn:Hc.
  - cbn [bind]. destruct (negb _); [done|].
    destruct (do_summarize _ n_recur) as [[t tk] c].
    destruct (clean_summary_checked t) as [y'|e'] eqn:Ht; [done|].
    cbn [bind]. intros [= <-]. by apply checked_raise in Ht.
  - cbn [bind]. intros [= <-]. by apply checked_raise in Hc.
Qed.

Lemma passes_raise (n_recurs : list nat) (st : state cost) (e : exn) :
  loop n_recurs st = Raise e -> e = AssertionError.
Proof.
  revert st. induction n_recurs as [|n ns IH]; intros st; [done|].
  cbn [passes]. destruct (one_pass n st) as [[st'|st']|e'] eqn:Hp; cbn [bind].
  - done.
  - apply IH.
  - intros [= <-]. by apply pass_raise in Hp.
Qed.

(** The invariant is kept by a pass that runs to its end. *)
Lemma invariant_step (summary : str) (tokens : Z) (price : cost) (k : nat)
    (st st' : state cost) :
  inv summary tokens price k st ->
  summary_text st = stored (recursive_summaries st) k ->
  one_pass (S k) st = Ok (inr st') ->
  inv summary tokens price (S k) st' /\
  summary_text st' = stored (recursive_summaries st') (S k).
Proof.
  intros (Hn & Hkeys & H0 & Hchain & Htk & Hcost) Htext Hpass.
  apply pass_done in Hpass as (Hc & Hf & Hc' & ->).
  rewrite Hn, Htext, Nat.add_1_r in *.
  set (rs := recursive_summaries st) in *.
  set (r := do_summarize (transform_documents (clean_summary (stored rs k)))
              (S k)) in *.
  assert (Hcall : call (<[S k := r.1.1]> rs) (S k) = r).
  { unfold Recursive.call. cbn [Nat.sub]. rewrite Nat.sub_0_r.
    by rewrite stored_insert_ne by lia. }
  assert (Hcalls : forall j, 1 <= j <= k ->
            call (<[S k := r.1.1]> rs) j = call rs j).
  { intros j Hj. apply call_insert_ne. lia. }
  assert (Hmap : forall (B : Type) (f : str * Z * cost -> B),
            map (fun j => f (call (<[S k := r.1.1]> rs) j)) (seq 1 k)
            = map (fun j => f (call rs j)) (seq 1 k)).
  { intros B f. apply map_ext_in. intros j Hj%in_seq.
    by rewrite Hcalls by lia. }
  split; [|cbn [summary_text recursive_summaries];
           by rewrite stored_insert_eq].
  unfold invariant. cbn [summary_text recursive_summaries n_recursion_done
                          doc_total_tokens doc_total_cost].
  split; [done|]. split; [|split; [|split; [|split]]].
  - intros j. destruct (decide (j = S k)) as [->|Hne].
    + rewrite lookup_insert_eq. split; [lia|by eexists].
    + rewrite lookup_insert_ne by done. rewrite Hkeys. lia.
  - by rewrite lookup_insert_ne by lia.
  - intros j Hj. destruct (decide (j = S k)) as [->|Hne].
    + rewrite Hcall, lookup_insert_eq, stored_insert_eq.
      cbn [Nat.sub]. rewrite Nat.sub_0_r, stored_insert_ne by lia. done.
    + rewrite Hcalls, lookup_insert_ne by lia.
      rewrite !stored_insert_ne by lia. apply Hchain. lia.
  - rewrite seq_S, map_app, foldr_app. cbn [map foldr plus].
    rewrite Hcall, (Hmap _ (fun r => r.1.2)), Htk.
    generalize (map (fun j => (call rs j).1.2) (seq 1 k)). intros l.
    induction l as [|z l IH]; cbn [foldr]; lia.
  - rewrite seq_S, map_app, fold_left_app. cbn [map fold_left plus].
    by rewrite Hcall, (Hmap _ (fun r => r.2)), Hcost.
Qed.

(** The loop from pass [k + 1] on: it ends after [k'] passes in all, either
    all of them or, with a [break], fewer. *)
Lemma passes_invariant (summary : str) (tokens : Z) (price : cost) (m : nat) :
  forall (k : nat) (st st' : state cost),
  inv summary tokens price k st ->
  summary_text st = stored (recursive_summaries st) k ->
  loop (seq (S k) m) st = Ok st' ->
  exists k',
    k <= k' <= k + m /\
    inv summary tokens price k' st' /\
    ((k' = k + m /\
      summary_text st' = stored (recursive_summaries st') k') \/
     (k' < k + m /\
      summary_text st'
        = clean_summary (stored (recursive_summaries st') k') /\
      fits (stored (recursive_summaries st') k') = false /\
      clean_summary_checked (stored (recursive_summaries st') k')
        = Ok (clean_summary (stored (recursive_summaries st') k')))).
Proof.
  induction m as [|m IH]; intros k st st' Hinv Htext.
  - cbn [seq passes]. intros [= <-]. exists k. split; [lia|].
    split; [done|]. left. split; [lia|done].
  - cbn [seq passes].
    destruct (one_pass (S k) st) as [[st1|st1]|e] eqn:Hp; cbn [bind]; [| |done].
    + intros [= <-]. apply pass_break in Hp as (Hc & Hf & ->).
      exists k. split; [lia|]. split.
      * destruct Hinv as (Hn & Hkeys & H0 & Hchain & Htk & Hcost).
        exact (conj Hn (conj Hkeys (conj H0 (conj Hchain (conj Htk Hcost))))).
      * right. cbn [summary_text recursive_summaries].
        rewrite <- Htext. split; [lia|done].
    + intros Hloop.
      destruct (invariant_step _ _ _ _ _ _ Hinv Htext Hp) as [Hinv1 Htext1].
      destruct (IH (S k) st1 st' Hinv1 Htext1 Hloop)
        as (k' & Hk' & Hinv' & Hend).
      exists k'. split; [lia|]. split; [done|].
      destruct Hend as [[-> Ht]|[Hlt Ht]]; [left|right].
      * split; [lia|done].
      * split; [lia|done].
Qed.

Lemma run_invariant (n : nat) (summary : str) (tokens : Z) (price : cost)
    (st : state cost) :
  run n summary tokens price = Ok st ->
  exists k,
    k <= n /\
    inv summary tokens price k st /\
    ((k = n /\ summary_text st = stored (recursive_summaries st) k) \/
     (k < n /\
      summary_text st = clean_summary (stored (recursive_summaries st) k) /\
      fits (stored (recursive_summaries st) k) = false /\
      clean_summary_checked (stored (recursive_summaries st) k)
        = Ok (clean_summary (stored (recursive_summaries st) k)))).
Proof.
  unfold summarize_recursively.
  set (st0 := State summary tokens price 0 {[0 := summary]}).
  assert (Hinv0 : inv summary tokens price 0 st0).
  { unfold invariant, st0. cbn [recursive_summaries n_recursion_done
      doc_total_tokens doc_total_cost seq map foldr fold_left].
    split; [done|]. split; [|split; [|split; [|split]]].
    - intros j. destruct (decide (j = 0)) as [->|Hne].
      + rewrite lookup_singleton_eq. split; [lia|by eexists].
      + rewrite lookup_singleton_ne by done. split; [by intros [? ?]|lia].
    - apply lookup_singleton_eq.
    - intros j Hj. lia.
    - lia.
    - done. }
  assert (Htext0 : summary_text st0 = stored (recursive_summaries st0) 0).
  { unfold st0, stored. cbn [summary_text recursive_summaries].
    by rewrite lookup_singleton_eq. }
  destruct (0 <? n) eqn:E.
  - intros Hloop.
    destruct (passes_invariant _ _ _ n 0 st0 st Hinv0 Htext0 Hloop)
      as (k & Hk & Hinv & Hend).
    exists k. split; [lia|]. split; [done|]. by rewrite Nat.add_0_l in Hend.
  - apply Nat.ltb_ge in E. intros [= <-]. exists 0. split; [lia|].
    split; [done|]. left. split; [lia|done].
Qed.

(** X23. The summaries that are stored: there is one for each pass that ran to
    its end, at most [summary_n_recursion]; the first is the summary of
    the document, and each later one is what [do_summarize] made of the
    cleaned one before it, which passed the assertions and the check of
    its length. *)
Theorem recursive_summaries_chain (n : nat) (summary : str) (tokens : Z)
    (price : cost) (st : state cost) :
  run n summary tokens price = Ok st ->
  let rs := recursive_summaries st in
  n_recursion_done st <= n /\
  (forall j, is_Some (rs !! j) <-> j <= n_recursion_done st) /\
  rs !! 0 = Some summary /\
  (forall j prev, 1 <= j <= n_recursion_done st -> rs !! (j - 1) = Some prev ->
     rs !! j
       = Some (do_summarize (transform_documents (clean_summary prev)) j).1.1 /\
     check_docs_tkn_length (transform_documents (clean_summary prev)) = true /\
     clean_summary_checked prev = Ok (clean_summary prev)).
Proof.
  intros Hrun. apply run_invariant in Hrun as (k & Hk & Hinv & _).
  destruct Hinv as (Hn & Hkeys & H0 & Hchain & _). cbn zeta. rewrite Hn.
  split; [done|]. split; [done|]. split; [done|].
  intros j prev Hj Hprev. destruct (Hchain j Hj) as (Hs & Hf & Hc & _).
  unfold Recursive.call, stored in *. rewrite Hprev in *. by cbn [default] in *.
Qed.

(** X24. The totals: the tokens and the cost of the first summary, to which
    those of each pass that ran to its end were added in turn. *)
Theorem recursive_totals (n : nat) (summary : str) (tokens : Z)
    (price : cost) (st : state cost) :
  run n summary tokens price = Ok st ->
  let rs := recursive_summaries st in
  let calls := map (call rs) (seq 1 (n_recursion_done st)) in
  doc_total_tokens st
    = (tokens + foldr Z.add 0 (map (fun r => r.1.2) calls))%Z /\
  doc_total_cost st = fold_left cost_add (map (fun r => r.2) calls) price.
Proof.
  intros Hrun. apply run_invariant in Hrun as (k & Hk & Hinv & _).
  destruct Hinv as (Hn & _ & _ & _ & Htk & Hcost). cbn zeta.
  rewrite Hn, !map_map. by split.
Qed.

(** X25. The summary that is returned.  When every pass ran, it is the last one
    stored.  When a pass stopped the loop, it is the cleaned text of the
    last one stored, not that text itself: it holds none of the markers and
    did not pass the check of its length. *)
Theorem returned_summary (n : nat) (summary : str) (tokens : Z)
    (price : cost) (st : state cost) :
  run n summary tokens price = Ok st ->
  let last := stored (recursive_summaries st) (n_recursion_done st) in
  (n_recursion_done st = n -> summary_text st = last) /\
  (n_recursion_done st < n ->
     summary_text st = clean_summary last /\
     check_docs_tkn_length (transform_documents (summary_text st)) = false /\
     Forall (fun needle => contains needle (summary_text st) = false)
       Asserted.needles).
Proof.
  intros Hrun. apply run_invariant in Hrun as (k & Hk & Hinv & Hend).
  destruct Hinv as (Hn & _). cbn zeta. rewrite Hn.
  destruct Hend as [[-> Ht]|(Hlt & Ht & Hf & Hc)].
  - split; [done|lia].
  - split; [lia|]. intros _. rewrite Ht. split; [done|]. split; [done|].
    by apply checked_needles.
Qed.

(** X26. The only error of the passes is the [AssertionError] of the clean-up. *)
Theorem recursion_errors (n : nat) (summary : str) (tokens : Z)
    (price : cost) (e : exn) :
  run n summary tokens price = Raise e -> e = AssertionError.
Proof.
  unfold summarize_recursively. destruct (0 <? n); [|done].
  apply passes_raise.
Qed.

(** X27. The files: of the summaries stored, the last goes to [out_file] and each
    earlier one to a file of its own.  With the summary that is returned,
    [out_file] so receives the last text stored, markers included, also
    when the summary returned is the cleaned one. *)
Theorem written_files (n : nat) (summary : str) (tokens : Z)
    (price : cost) (st : state cost) (j : nat) :
  run n summary tokens price = Ok st ->
  j <= n_recursion_done st ->
  (is_intermediate (recursive_summaries st) j = true
   <-> j < n_recursion_done st) /\
  max_key (recursive_summaries st) = n_recursion_done st /\
  is_Some (recursive_summaries st !! j).
Proof.
  intros Hrun Hj. apply run_invariant in Hrun as (k & Hk & Hinv & _).
  destruct Hinv as (Hn & Hkeys & _). rewrite Hn in *.
  pose proof (max_key_range _ _ Hkeys) as Hmax.
  split; [|split; [done|by apply Hkeys]].
  unfold is_intermediate. rewrite Hmax, andb_true_iff, !Nat.ltb_lt.
  split; [by intros [_ ?]|]. intros Hlt. split; [|done].
  apply size_two; apply Hkeys; lia.
Qed.

End Passes.

Lemma recursive_summaries_chain_witness :
  exists st,
    SamplePasses.summarize 3 (lit "abcdefgh") = Ok st /\
    n_recursion_done st = 2 /\
    recursive_summaries st !! 0 = Some (lit "abcdefgh") /\
    recursive_summaries st !! 2 = Some (lit "ab").
Proof.
  destruct (SamplePasses.summarize 3 (lit "abcdefgh")) as [st|e] eqn:Hrun;
    [|by vm_compute in Hrun].
  exists st.
  destruct (recursive_summaries_chain Nat.add (fun s => s)
              SamplePasses.long_enough SamplePasses.halve
              3 (lit "abcdefgh") 8%Z 0 st Hrun) as (_ & _ & H0 & Hchain).
  vm_compute in Hrun. injection Hrun as <-.
  split; [done|]. split; [reflexivity|]. split; [exact H0|].
  vm_compute. reflexivity.
Defined.

Lemma recursive_totals_witness :
  exists st,
    SamplePasses.summarize 3 (lit "abcdefgh") = Ok st /\
    doc_total_tokens st = 20%Z /\
    doc_total_cost st = 3.
Proof.
  destruct (SamplePasses.summarize 3 (lit "abcdefgh")) as [st|e] eqn:Hrun;
    [|by vm_compute in Hrun].
  exists st.
  destruct (recursive_totals Nat.add (fun s => s)
              SamplePasses.long_enough SamplePasses.halve
              3 (lit "abcdefgh") 8%Z 0 st Hrun) as [Htk Hcost].
  split; [done|]. rewrite Htk, Hcost.
  vm_compute in Hrun. injection Hrun as <-. vm_compute. by split.
Defined.

Lemma returned_summary_witness :
  exists st,
    SamplePasses.summarize 3 (lit "abcdefgh") = Ok st /\
    summary_text st = lit "ab" /\
    SamplePasses.long_enough (summary_text st) = false.
Proof.
  destruct (SamplePasses.summarize 3 (lit "abcdefgh")) as [st|e] eqn:Hrun;
    [|by vm_compute in Hrun].
  exists st.
  destruct (returned_summary Nat.add (fun s => s)
              SamplePasses.long_enough SamplePasses.halve
              3 (lit "abcdefgh") 8%Z 0 st Hrun) as [_ Hstop].
  destruct Hstop as (Ht & Hf & _).
  { vm_compute in Hrun. injection Hrun as <-. vm_compute. lia. }
  split; [done|]. split; [|exact Hf].
  rewrite Ht. vm_compute in Hrun. injection Hrun as <-. vm_compute.
  reflexivity.
Defined.

Lemma recursion_errors_witness :
  SamplePasses.summarize 1 (lit "- Chunk sizes vary") = Raise AssertionError.
Proof.
  destruct (SamplePasses.summarize 1 (lit "- Chunk sizes vary"))
    as [st|e] eqn:Hrun; [by vm_compute in Hrun|].
  f_equal.
  exact (recursion_errors Nat.add (fun s => s)
           SamplePasses.long_enough SamplePasses.halve
           1 (lit "- Chunk sizes vary") 8%Z 0 e Hrun).
Defined.

Lemma written_files_witness :
  exists st,
    SamplePasses.summarize 3 (lit "abcdefgh") = Ok st /\
    is_intermediate (recursive_summaries st) 1 = true /\
    is_intermediate (recursive_summaries st) 2 = false.
Proof.
  destruct (SamplePasses.summarize 3 (lit "abcdefgh")) as [st|e] eqn:Hrun;
    [|by vm_compute in Hrun].
  exists st.
  destruct (written_files Nat.add (fun s => s)
              SamplePasses.long_enough SamplePasses.halve
              3 (lit "abcdefgh") 8%Z 0 st 1 Hrun) as (Hiff & _ & _).
  { vm_compute in Hrun. injection Hrun as <-. vm_compute. lia. }
  split; [done|]. split.
  - apply Hiff. vm_compute in Hrun. injection Hrun as <-. vm_compute. lia.
  - vm_compute in Hrun. injection Hrun as <-. vm_compute. reflexivity.
Defined.

End RecursiveSummaries.
